(** * Result projection of the movies backend (server.go)

    A shallow embedding of the response-shaping code of [server.go]: the row
    decoder of the graph driver, the graph, detail, search and vote
    projections, the four endpoint handlers and [parseLimit].

    Conventions.
    - Go's [int] and [int64] are modelled as [Z]; slice lengths are far below
      [2^63], so no wrap-around is involved in the index arithmetic.
    - A value of type [any] coming out of a result row is a [value].
    - A run-time panic (nil dereference, failed type assertion) is the
      [Panic] outcome of the [result] monad. *)

From stdpp Require Import gmap strings list pretty.
From Stdlib Require Import ZArith Lia Ascii.

Local Open Scope Z_scope.
#[local] Set Warnings "-register-all,-clear-no-such-hyp".

(** ** Dynamically typed values and run-time panics *)

(** The dynamic values the driver hands out in a record ([any] in Go):
    [nil], booleans, 64-bit integers, strings and lists of values. *)
Inductive value : Type :=
| VNil
| VBool (b : bool)
| VInt64 (n : Z)
| VString (s : string)
| VList (l : list value).

Inductive panic : Type :=
| NilDereference
| InterfaceConversion (v : value).

Inductive result (A : Type) : Type :=
| Ok (a : A)
| Panic (p : panic).
Arguments Ok {A} a.
Arguments Panic {A} p.

#[global] Instance result_ret : MRet result := λ A a, Ok a.
#[global] Instance result_bind : MBind result := λ A B f m,
  match m with
  | Ok a => f a
  | Panic p => Panic p
  end.

(** A [for _, x := range l] loop whose body may panic. *)
Fixpoint rangeM {S A : Type} (body : S → A → result S) (l : list A) (s : S)
  : result S :=
  match l with
  | [] => Ok s
  | x :: l' => s' ← body s x; rangeM body l' s'
  end.

(** ** The driver's records

    The graph driver (neo4j-go-driver/v5) is a library the server imports.
    The three functions the handlers call are modelled after the driver:
    [Record.Get] scans the keys of the record, [GetRecordValue] returns the
    zero value of the type asked for when the key is missing, the value is
    nil or the value is of another type (the row decoder contract of the
    specification), and [ExecuteQuery], further down, returns the zero
    value of its result type together with the error when the query fails. *)

Module neo4j.

(** A record: its keys with their values, in column order. *)
Definition record : Type := list (string * value).

(** [Record.Get]: the value of the first column named [key]. *)
Fixpoint Get (r : record) (key : string) : value * bool :=
  match r with
  | [] => (VNil, false)
  | (ckey, v) :: r' => if String.eqb key ckey then (v, true) else Get r' key
  end.

(** The types a column can be read at, with Go's zero value of the type
    and the type assertion [rawValue.(T)]. *)
Class RecordValue (T : Type) : Type := {
  zero : T;
  assert : value → option T
}.

#[global] Instance RecordValue_string : RecordValue string := {|
  zero := "";
  assert v := match v with VString s => Some s | _ => None end
|}.

#[global] Instance RecordValue_int64 : RecordValue Z := {|
  zero := 0;
  assert v := match v with VInt64 n => Some n | _ => None end
|}.

#[global] Instance RecordValue_list : RecordValue (list value) := {|
  zero := [];
  assert v := match v with VList l => Some l | _ => None end
|}.

Inductive error : Type :=
| NoSuchKey (key : string)
| UnexpectedType (v : value).

(** [GetRecordValue[T](record, key)]: value, is-nil flag and error. *)
Definition GetRecordValue (T : Type) `{RecordValue T}
    (r : record) (key : string) : T * bool * option error :=
  match Get r key with
  | (_, false) => (zero, false, Some (NoSuchKey key))
  | (VNil, true) => (zero, true, None)
  | (rawValue, true) =>
      match assert rawValue with
      | Some v => (v, false, None)
      | None => (zero, false, Some (UnexpectedType rawValue))
      end
  end.

Record Counters : Type := { PropertiesSet : Z }.
Record ResultSummary : Type := { SummaryCounters : Counters }.

Record EagerResult : Type := {
  Keys : list string;
  Records : list record;
  Summary : ResultSummary
}.

End neo4j.

(** ** Response types *)

Record Person : Type := {
  Person_Job : string;
  Person_Role : list string;
  Person_Name : string
}.

Record Movie : Type := {
  Movie_Released : Z;
  Movie_Title : string;
  Movie_Tagline : string;
  Movie_Votes : Z;
  Movie_Cast : list Person
}.

Record MovieResult : Type := { MovieResult_Movie : Movie }.

Record VoteResult : Type := { VoteResult_Updates : Z }.

Record Node : Type := { Node_Title : string; Node_Label : string }.

Record Link : Type := { Link_Source : Z; Link_Target : Z }.

Record D3Response : Type := {
  D3_Nodes : list Node;
  D3_Links : list Link
}.

#[global] Instance Node_eq_dec : EqDecision Node.
Proof. solve_decision. Defined.
#[global] Instance Link_eq_dec : EqDecision Link.
Proof. solve_decision. Defined.

(** [len(s)] as a Go [int]. *)
Definition len {A : Type} (s : list A) : Z := Z.of_nat (length s).

(** ** Graph projection ([graphHandler], the loop over [result.Records]) *)

(** [actor == node.Title]: an interface value equals a string exactly when
    it holds that string. *)
Definition any_eq_string (a : value) (s : string) : bool :=
  match a with
  | VString s' => String.eqb s' s
  | _ => false
  end.

(** The inner search loop: [idx] stays [-1] unless some node matches, and
    the loop breaks at the first match. [i] is the index of the head. *)
Fixpoint searchActor (actor : value) (nodes : list Node) (i : Z) : Z :=
  match nodes with
  | [] => -1
  | node :: rest =>
      if any_eq_string actor (Node_Title node)
         && String.eqb (Node_Label node) "actor"
      then i
      else searchActor actor rest (i + 1)
  end.

(** The type assertion [actor.(string)]. *)
Definition assertString (v : value) : result string :=
  match v with
  | VString s => Ok s
  | _ => Panic (InterfaceConversion v)
  end.

(** Body of [for _, actor := range actors]. *)
Definition linkActor (movIdx : Z) (d3Response : D3Response) (actor : value)
  : result D3Response :=
  let idx := searchActor actor (D3_Nodes d3Response) 0 in
  if idx =? -1 then
    title ← assertString actor;
    let nodes := D3_Nodes d3Response ++ [{| Node_Title := title; Node_Label := "actor" |}] in
    Ok {| D3_Nodes := nodes;
          D3_Links := D3_Links d3Response
                        ++ [{| Link_Source := len nodes - 1; Link_Target := movIdx |}] |}
  else
    Ok {| D3_Nodes := D3_Nodes d3Response;
          D3_Links := D3_Links d3Response
                        ++ [{| Link_Source := idx; Link_Target := movIdx |}] |}.

(** Body of [for _, record := range result.Records]. *)
Definition graphRecord (d3Response : D3Response) (record : neo4j.record)
  : result D3Response :=
  let '(title, _, _) := neo4j.GetRecordValue string record "movie" in
  let '(actors, _, _) := neo4j.GetRecordValue (list value) record "cast" in
  let nodes := D3_Nodes d3Response ++ [{| Node_Title := title; Node_Label := "movie" |}] in
  let movIdx := len nodes - 1 in
  rangeM (linkActor movIdx) actors
         {| D3_Nodes := nodes; D3_Links := D3_Links d3Response |}.

Definition graphProjection (records : list neo4j.record) : result D3Response :=
  rangeM graphRecord records {| D3_Nodes := []; D3_Links := [] |}.

(** ** The graph rows and the algorithm of the specification

    The specification describes the graph projection over rows
    [(movieTitle, actorNames)]. [spec_graph] follows its pseudo-code line by
    line; it is compared with [graphProjection] below. *)

Definition GraphRow : Type := string * list string.

(** The record the driver delivers for a graph row. *)
Definition recordOfGraphRow (row : GraphRow) : neo4j.record :=
  [("movie", VString row.1); ("cast", VList (VString <$> row.2))].

Definition isActorNamed (actorName : string) (n : Node) : Prop :=
  Node_Label n = "actor" ∧ Node_Title n = actorName.

#[global] Instance isActorNamed_dec actorName n : Decision (isActorNamed actorName n).
Proof. unfold isActorNamed. apply _. Defined.

Definition mkNode (title label : string) : Node :=
  {| Node_Title := title; Node_Label := label |}.

Definition mkLink (source target : nat) : Link :=
  {| Link_Source := Z.of_nat source; Link_Target := Z.of_nat target |}.

(** "search nodes for an existing node with label actor and title ==
    actorName; if found at position i, append a link from i; else append
    the actor node and a link from the index of the new node". *)
Definition spec_linkActor (movieIndex : nat) (g : D3Response) (actorName : string)
  : D3Response :=
  match list_find (isActorNamed actorName) (D3_Nodes g) with
  | Some (i, _) =>
      {| D3_Nodes := D3_Nodes g;
         D3_Links := D3_Links g ++ [mkLink i movieIndex] |}
  | None =>
      {| D3_Nodes := D3_Nodes g ++ [mkNode actorName "actor"];
         D3_Links := D3_Links g ++ [mkLink (length (D3_Nodes g)) movieIndex] |}
  end.

(** "append the movie node; movieIndex := index of the just-appended node;
    for each actorName in actorNames, in given order: ...". *)
Definition spec_row (g : D3Response) (row : GraphRow) : D3Response :=
  let movieIndex := length (D3_Nodes g) in
  foldl (spec_linkActor movieIndex)
        {| D3_Nodes := D3_Nodes g ++ [mkNode row.1 "movie"];
           D3_Links := D3_Links g |}
        row.2.

Definition emptyGraph : D3Response := {| D3_Nodes := []; D3_Links := [] |}.

Definition spec_graph (rows : list GraphRow) : D3Response :=
  foldl spec_row emptyGraph rows.

Definition topGunRows : list GraphRow :=
  [("Top Gun", ["Tom Cruise"]); ("Days of Thunder", ["Tom Cruise"])].

Definition topGunGraph : D3Response :=
  {| D3_Nodes := [mkNode "Top Gun" "movie"; mkNode "Tom Cruise" "actor";
                  mkNode "Days of Thunder" "movie"];
     D3_Links := [mkLink 1 0; mkLink 1 2] |}.

(** ** Detail projection ([movieHandlerFunc], the loop over [result.Records]) *)

(** [toStringSlice]: every element goes through the assertion [e.(string)]. *)
Definition toStringSlice (slice : list value) : result (list string) :=
  rangeM (λ result e, s ← assertString e; Ok (result ++ [s])) slice [].

Definition emptyMovie : Movie :=
  {| Movie_Released := 0; Movie_Title := ""; Movie_Tagline := "";
     Movie_Votes := 0; Movie_Cast := [] |}.

Definition setTitle (movie : Movie) (title : string) : Movie :=
  {| Movie_Released := Movie_Released movie; Movie_Title := title;
     Movie_Tagline := Movie_Tagline movie; Movie_Votes := Movie_Votes movie;
     Movie_Cast := Movie_Cast movie |}.

Definition appendCast (movie : Movie) (p : Person) : Movie :=
  {| Movie_Released := Movie_Released movie; Movie_Title := Movie_Title movie;
     Movie_Tagline := Movie_Tagline movie; Movie_Votes := Movie_Votes movie;
     Movie_Cast := Movie_Cast movie ++ [p] |}.

(** Body of [for _, record := range result.Records]: the type switch on
    [role] has the case [[]any] and the default case. *)
Definition movieRecord (movie : Movie) (record : neo4j.record) : result Movie :=
  let '(title, _, _) := neo4j.GetRecordValue string record "title" in
  let movie := setTitle movie title in
  let '(name, _, _) := neo4j.GetRecordValue string record "name" in
  let '(job, _, _) := neo4j.GetRecordValue string record "job" in
  let '(role, _) := neo4j.Get record "role" in
  match role with
  | VList slice =>
      roles ← toStringSlice slice;
      Ok (appendCast movie
            {| Person_Job := job; Person_Role := roles; Person_Name := name |})
  | _ =>
      Ok (appendCast movie
            {| Person_Job := job; Person_Role := []; Person_Name := name |})
  end.

Definition movieProjection (records : list neo4j.record) : result Movie :=
  rangeM movieRecord records emptyMovie.

(** ** Search projection ([searchHandlerFunc]) *)

Definition searchRecord (record : neo4j.record) : MovieResult :=
  let '(released, _, _) := neo4j.GetRecordValue Z record "released" in
  let '(title, _, _) := neo4j.GetRecordValue string record "title" in
  let '(tagline, _, _) := neo4j.GetRecordValue string record "tagline" in
  let '(votes, _, _) := neo4j.GetRecordValue Z record "votes" in
  {| MovieResult_Movie :=
       {| Movie_Released := released; Movie_Title := title;
          Movie_Tagline := tagline; Movie_Votes := votes; Movie_Cast := [] |} |}.

Definition searchProjection (records : list neo4j.record) : list MovieResult :=
  searchRecord <$> records.

(** ** Vote projection ([voteInMovieHandlerFunc]) *)

Definition voteProjection (summary : neo4j.ResultSummary) : VoteResult :=
  {| VoteResult_Updates := neo4j.PropertiesSet (neo4j.SummaryCounters summary) |}.

(** ** [strconv.Atoi] and [parseLimit] *)

Module strconv.

Inductive NumError : Type := ErrSyntax | ErrRange.

Definition isDigit (c : ascii) : bool :=
  (48 <=? Z.of_N (N_of_ascii c)) && (Z.of_N (N_of_ascii c) <=? 57).

(** Value of a run of decimal digits; [None] at the first other byte. *)
Fixpoint digits (s : string) (n : Z) : option Z :=
  match s with
  | EmptyString => Some n
  | String ch s' =>
      if isDigit ch
      then digits s' (n * 10 + (Z.of_N (N_of_ascii ch) - 48))
      else None
  end.

Definition maxInt : Z := 2 ^ 63 - 1.
Definition minInt : Z := - 2 ^ 63.

(** [Atoi] on a 64-bit platform: an optional sign and at least one
    decimal digit; a value outside [int] is clamped and reported. *)
Definition Atoi (s : string) : Z * option NumError :=
  let '(neg, body) :=
    match s with
    | String "-"%char s' => (true, s')
    | String "+"%char s' => (false, s')
    | _ => (false, s)
    end in
  match body with
  | EmptyString => (0, Some ErrSyntax)
  | _ =>
      match digits body 0 with
      | None => (0, Some ErrSyntax)
      | Some un =>
          let n := if neg then - un else un in
          if n <? minInt then (minInt, Some ErrRange)
          else if maxInt <? n then (maxInt, Some ErrRange)
          else (n, None)
      end
  end.

End strconv.

(** The part of a request the handlers read: the path and the parsed
    query string ([req.URL.Query()], a map from key to its values). *)
Record Request : Type := {
  URL_Path : string;
  URL_Query : gmap string (list string)
}.

(** Indexing a Go map of slices: a missing key gives the nil slice. *)
Definition values (q : gmap string (list string)) (key : string) : list string :=
  default [] (q !! key).

Definition parseLimit (req : Request) : Z :=
  let limits := values (URL_Query req) "limit" in
  match limits with
  | [] => 50
  | limits0 :: _ =>
      match strconv.Atoi limits0 with
      | (limit, None) => limit
      | (_, Some _) => 50
      end
  end.

(** ** The endpoint handlers

    A handler runs against the response writer and the server log; both are
    kept in the handler's state, which survives a panic, so that what was
    written and logged before the panic can be observed. *)

(** What [json.NewEncoder(w).Encode] is given to serialise. *)
Inductive payload : Type :=
| JSONMovies (movies : list MovieResult)
| JSONMovie (movie : Movie)
| JSONVote (vote : VoteResult)
| JSONGraph (d3Response : D3Response).

(** The response writer: its header map, the bodies written so far, and the
    error its [Write] reports, if the connection is broken. *)
Record ResponseWriter : Type := {
  Header : gmap string (list string);
  Written : list payload;
  WriteError : option string
}.

Record HandlerState : Type := {
  hs_w : ResponseWriter;
  hs_log : list string
}.

Definition handler (A : Type) : Type := HandlerState → result A * HandlerState.

#[global] Instance handler_ret : MRet handler := λ A a st, (Ok a, st).
#[global] Instance handler_bind : MBind handler := λ A B f m st,
  match m st with
  | (Ok a, st') => f a st'
  | (Panic p, st') => (Panic p, st')
  end.

Definition lift {A : Type} (r : result A) : handler A := λ st, (r, st).

(** Following a pointer: [nil] panics. *)
Definition deref {A : Type} (p : option A) : result A :=
  match p with
  | Some a => Ok a
  | None => Panic NilDereference
  end.

(** [w.Header().Set(key, v)] *)
Definition Header_Set (key v : string) : handler unit := λ st,
  (Ok tt,
   {| hs_w := {| Header := <[key := [v]]> (Header (hs_w st));
                 Written := Written (hs_w st);
                 WriteError := WriteError (hs_w st) |};
      hs_log := hs_log st |}).

(** [log.Println(msg, err)] *)
Definition log_Println (msg err : string) : handler unit := λ st,
  (Ok tt, {| hs_w := hs_w st; hs_log := hs_log st ++ [msg +:+ " " +:+ err] |}).

(** [json.NewEncoder(w).Encode(v)]: the body is written unless the writer
    fails, in which case its error is returned. *)
Definition Encode (v : payload) : handler (option string) := λ st,
  match WriteError (hs_w st) with
  | Some e => (Ok (Some e), st)
  | None =>
      (Ok None,
       {| hs_w := {| Header := Header (hs_w st);
                     Written := Written (hs_w st) ++ [v];
                     WriteError := None |};
          hs_log := hs_log st |})
  end.

(** [if err != nil { log.Println(msg, err) }] at the end of a handler. *)
Definition logIfError (msg : string) (err : option string) : handler unit :=
  match err with
  | Some e => log_Println msg e
  | None => mret tt
  end.

(** The four query templates sent to the graph engine. *)
Inductive Query : Type :=
| SearchQuery   (* MATCH (movie:Movie) WHERE toLower(movie.title) CONTAINS ... *)
| MovieQuery    (* MATCH (movie:Movie {title:$title}) OPTIONAL MATCH ... *)
| VoteQuery     (* MATCH (m:Movie {title: $title}) SET m.votes = ... + 1 *)
| GraphQuery.   (* MATCH (m:Movie)<-[:ACTED_IN]-(a:Person) ... LIMIT $limit *)

(** What [neo4j.ExecuteQuery] returns: the [*EagerResult] ([None] is the nil
    pointer) and the error ([None] is the nil error). On failure the driver
    returns the zero value of the result type, the nil pointer, together
    with the error. *)
Definition QueryResult : Type := option neo4j.EagerResult * option string.

Definition failed (err : string) : QueryResult := (None, Some err).
Definition succeeded (res : neo4j.EagerResult) : QueryResult := (Some res, None).

(** [s[n:]]; the serve mux routes a request to a handler only when the path
    starts with the handler's pattern, so the slice is within bounds. *)
Fixpoint sliceFrom (n : nat) (s : string) : string :=
  match n, s with
  | O, _ => s
  | S n', String _ s' => sliceFrom n' s'
  | S _, EmptyString => EmptyString
  end.

(** [Values.Get]: the first value of the key, or the empty string. *)
Definition Values_Get (q : gmap string (list string)) (key : string) : string :=
  match values q key with
  | [] => ""
  | v :: _ => v
  end.

Section handlers.

(** [neo4j.ExecuteQuery] against the configured driver and database, and
    [url.QueryUnescape] (its error is discarded by the handlers). *)
Variable ExecuteQuery : Query → gmap string value → QueryResult.
Variable QueryUnescape : string → string.

Definition searchHandlerFunc (req : Request) : handler unit :=
  Header_Set "Content-Type" "application/json";;
  let '(result, err) :=
    ExecuteQuery SearchQuery
      {[ "title" := VString (Values_Get (URL_Query req) "q") ]} in
  match err with
  | Some e => log_Println "error querying search:" e
  | None =>
      res ← lift (deref result);
      let movies := searchProjection (neo4j.Records res) in
      err ← Encode (JSONMovies movies);
      logIfError "error writing search response:" err
  end.

Definition movieHandlerFunc (req : Request) : handler unit :=
  Header_Set "Content-Type" "application/json";;
  let title := QueryUnescape (sliceFrom (String.length "/movie/") (URL_Path req)) in
  let '(result, err) :=
    ExecuteQuery MovieQuery {[ "title" := VString title ]} in
  res ← lift (deref result);
  movie ← lift (movieProjection (neo4j.Records res));
  match err with
  | Some e => log_Println "error querying movie:" e
  | None =>
      err ← Encode (JSONMovie movie);
      logIfError "error writing movie response:" err
  end.

Definition voteInMovieHandlerFunc (req : Request) : handler unit :=
  Header_Set "Content-Type" "application/json";;
  let title := QueryUnescape (sliceFrom (String.length "/movie/vote/") (URL_Path req)) in
  let '(result, err) :=
    ExecuteQuery VoteQuery {[ "title" := VString title ]} in
  res ← lift (deref result);
  let vote := voteProjection (neo4j.Summary res) in
  match err with
  | Some e => log_Println "error voting for movie:" e
  | None =>
      err ← Encode (JSONVote vote);
      logIfError "error writing vote result response:" err
  end.

(** The parameters [graphHandler] binds in its query. *)
Definition graphParameters (req : Request) : gmap string value :=
  {[ "limit" := VInt64 (parseLimit req) ]}.

Definition graphHandler (req : Request) : handler unit :=
  Header_Set "Content-Type" "application/json";;
  let '(result, err) := ExecuteQuery GraphQuery (graphParameters req) in
  res ← lift (deref result);
  d3Response ← lift (graphProjection (neo4j.Records res));
  match err with
  | Some e => log_Println "error querying graph:" e
  | None =>
      err ← Encode (JSONGraph d3Response);
      logIfError "error writing graph response:" err
  end.

End handlers.

(** A fresh response writer and an empty log. *)
Definition newWriter : ResponseWriter :=
  {| Header := ∅; Written := []; WriteError := None |}.

Definition serve (h : handler unit) : result unit * HandlerState :=
  h {| hs_w := newWriter; hs_log := [] |}.

(** ** Vocabulary of the graph properties *)

(** Titles of the actor nodes and of the movie nodes, in node order. *)
Definition actorTitlesOf (nodes : list Node) : list string :=
  Node_Title <$> filter (λ n, Node_Label n = "actor") nodes.

Definition movieTitlesOf (nodes : list Node) : list string :=
  Node_Title <$> filter (λ n, Node_Label n = "movie") nodes.

(** The distinct names of a list, in order of first occurrence. *)
Definition addNew (names : list string) (a : string) : list string :=
  if decide (a ∈ names) then names else names ++ [a].

Definition distinct (names : list string) : list string := foldl addNew [] names.

(** All actor names carried by the rows, with repetitions. *)
Definition castNames (rows : list GraphRow) : list string := concat (rows.*2).

(** Position of the actor node of a name (the length when there is none). *)
Definition actorIndex (nodes : list Node) (a : string) : nat :=
  match list_find (isActorNamed a) nodes with
  | Some (i, _) => i
  | None => length nodes
  end.

(** Position of the movie node of the [i]-th row: the number of nodes the
    earlier rows have produced. *)
Definition movieIndex (rows : list GraphRow) (i : nat) : nat :=
  length (D3_Nodes (spec_graph (take i rows))).

(** [nodes[i]] for a Go index. *)
Definition nodeAt (g : D3Response) (i : Z) : option Node :=
  if 0 <=? i then D3_Nodes g !! Z.to_nat i else None.

Definition occurrences {A : Type} `{EqDecision A} (x : A) (l : list A) : nat :=
  length (filter (x =.) l).

(** A link from the position of an actor node to that of a movie node. *)
Definition linkOk (nodes : list Node) (l : Link) : Prop :=
  ∃ (s t : nat) (a m : string),
    l = mkLink s t ∧
    nodes !! s = Some (mkNode a "actor") ∧
    nodes !! t = Some (mkNode m "movie").

(** The links a row contributes: one per actor name, in order, from the node
    of the name to the movie node [t] of the row. *)
Definition rowLinks (nodes : list Node) (t : nat) (names : list string) : list Link :=
  (λ a, mkLink (actorIndex nodes a) t) <$> names.

(** The graph of a row sequence in which an actor name equals a movie title. *)
Definition sameTitleRows : list GraphRow := [("Heat", ["Heat"])].

Definition sameTitleGraph : D3Response :=
  {| D3_Nodes := [mkNode "Heat" "movie"; mkNode "Heat" "actor"];
     D3_Links := [mkLink 1 0] |}.

(** The two columns [graphHandler] reads from a record. *)
Definition graphTitle (record : neo4j.record) : string :=
  (neo4j.GetRecordValue string record "movie").1.1.

Definition graphCast (record : neo4j.record) : list value :=
  (neo4j.GetRecordValue (list value) record "cast").1.1.

(** Two movies sharing an actor whose name is listed twice in the first. *)
Definition heatRows : list GraphRow :=
  [("Heat", ["Al Pacino"; "Robert De Niro"; "Al Pacino"]);
   ("The Irishman", ["Robert De Niro"; "Al Pacino"])].

Definition labelled (n : Node) : Prop :=
  Node_Label n = "movie" ∨ Node_Label n = "actor".

(** ** Vocabulary of the handler and decoder properties *)

(** A driver whose every query fails with [err], and one whose every query
    succeeds with [res]. *)
Definition failingDriver (err : string) : Query → gmap string value → QueryResult :=
  λ _ _, failed err.

Definition answeringDriver (res : neo4j.EagerResult)
  : Query → gmap string value → QueryResult :=
  λ _ _, succeeded res.

Definition resultOf (records : list neo4j.record) (propertiesSet : Z) : neo4j.EagerResult :=
  {| neo4j.Keys := [];
     neo4j.Records := records;
     neo4j.Summary :=
       {| neo4j.SummaryCounters := {| neo4j.PropertiesSet := propertiesSet |} |} |}.

(** The response writer after [Content-Type] was set and [bodies] written. *)
Definition jsonWriter (bodies : list payload) : ResponseWriter :=
  {| Header := {[ "Content-Type" := ["application/json"] ]};
     Written := bodies;
     WriteError := None |}.

(** The JSON text of a [VoteResult], after the struct tag [updates]. *)
Definition dquote : string := String "034"%char EmptyString.

Definition json_VoteResult (vote : VoteResult) : string :=
  "{" +:+ dquote +:+ "updates" +:+ dquote +:+ ":"
      +:+ pretty (VoteResult_Updates vote) +:+ "}".

(** The columns [movieHandlerFunc] reads from a record. *)
Definition detailTitle (record : neo4j.record) : string :=
  (neo4j.GetRecordValue string record "title").1.1.

Definition isString (v : value) : Prop := ∃ s, v = VString s.

#[global] Instance isString_dec v : Decision (isString v).
Proof.
  destruct v; [right|right|right|left|right];
    solve [by eexists | by intros [? ?]].
Defined.

Definition stringOf (v : value) : option string :=
  match v with
  | VString s => Some s
  | _ => None
  end.

(** A role column the type switch and [toStringSlice] get through: anything
    but a list that holds a value other than a string. *)
Definition roleDecodable (record : neo4j.record) : Prop :=
  match (neo4j.Get record "role").1 with
  | VList slice => Forall isString slice
  | _ => True
  end.

#[global] Instance roleDecodable_dec record : Decision (roleDecodable record).
Proof. unfold roleDecodable. destruct (neo4j.Get record "role").1; apply _. Defined.

Definition detailPerson (record : neo4j.record) : Person :=
  {| Person_Job := (neo4j.GetRecordValue string record "job").1.1;
     Person_Role :=
       match (neo4j.Get record "role").1 with
       | VList slice => omap stringOf slice
       | _ => []
       end;
     Person_Name := (neo4j.GetRecordValue string record "name").1.1 |}.

(** The title the loop leaves in [movie.Title]: that of the last record. *)
Definition lastTitle (records : list neo4j.record) : string :=
  foldl (λ _ record, detailTitle record) "" records.

(** The row of a movie without cast: the person columns are null. *)
Definition sentinelRecord (title : string) : neo4j.record :=
  [("title", VString title); ("name", VNil); ("job", VNil); ("role", VNil)].

(** A well-formed cast row. *)
Definition neoRecord : neo4j.record :=
  [("title", VString "The Matrix"); ("name", VString "Keanu Reeves");
   ("job", VString "acted"); ("role", VList [VString "Neo"])].

(** A cast row whose role list holds numbers, and a graph row whose cast
    holds a number besides a name. *)
Definition malformedRoleRecord : neo4j.record :=
  [("title", VString "The Matrix"); ("name", VString "Carrie-Anne Moss");
   ("job", VString "acted"); ("role", VList [VInt64 1; VInt64 2])].

Definition malformedCastRecord : neo4j.record :=
  [("movie", VString "The Matrix");
   ("cast", VList [VString "Keanu Reeves"; VInt64 42])].

Definition movieRequest : Request :=
  {| URL_Path := "/movie/The%20Matrix"; URL_Query := ∅ |}.

Definition voteRequest : Request :=
  {| URL_Path := "/movie/vote/The%20Matrix"; URL_Query := ∅ |}.

Definition graphRequest (limits : option (list string)) : Request :=
  {| URL_Path := "/graph";
     URL_Query := match limits with
                  | Some vs => {[ "limit" := vs ]}
                  | None => ∅
                  end |}.

(** The outcome of [Atoi] on digits carrying the value [un]. *)
Definition clamp (n : Z) : Z * option strconv.NumError :=
  if n <? strconv.minInt then (strconv.minInt, Some strconv.ErrRange)
  else if strconv.maxInt <? n then (strconv.maxInt, Some strconv.ErrRange)
  else (n, None).

(** ** Configuration ([parseConfiguration], [lookupEnvOrGetDefault]) *)

Record Neo4jConfiguration : Type := {
  Url : string;
  Username : string;
  Password : string;
  Database : string
}.

(** The environment: the variables that are set, with their values
    ([os.LookupEnv] finds a variable set to the empty string). *)
Definition lookupEnvOrGetDefault (env : gmap string string) (key defaultValue : string)
  : string :=
  match env !! key with
  | None => defaultValue
  | Some v => v
  end.

(** [strings.HasPrefix(s, prefix)] *)
Definition HasPrefix (s prefix : string) : bool := String.prefix prefix s.

Definition parseConfiguration (env : gmap string string) : Neo4jConfiguration :=
  let database := lookupEnvOrGetDefault env "NEO4J_DATABASE" "movies" in
  let database :=
    if negb (HasPrefix (lookupEnvOrGetDefault env "NEO4J_VERSION" "4") "4")
    then ""
    else database in
  {| Url := lookupEnvOrGetDefault env "NEO4J_URI" "neo4j+s://demo.neo4jlabs.com";
     Username := lookupEnvOrGetDefault env "NEO4J_USER" "movies";
     Password := lookupEnvOrGetDefault env "NEO4J_PASSWORD" "movies";
     Database := database |}.

(** ** [url.QueryUnescape]

    The standard library's decoder of query components, as the movie and
    vote handlers apply it to the rest of the path: [%XX] is one byte, [+]
    is a space, and a [%] that is not followed by two hexadecimal digits is
    an error, on which the empty string is returned. *)

Module url.

Definition ishex (c : ascii) : bool :=
  let n := N_of_ascii c in
  ((48 <=? n) && (n <=? 57) || (97 <=? n) && (n <=? 102)
   || (65 <=? n) && (n <=? 70))%N.

Definition unhex (c : ascii) : N :=
  let n := N_of_ascii c in
  (if (48 <=? n) && (n <=? 57) then n - 48
   else if (97 <=? n) && (n <=? 102) then n - 97 + 10
   else if (65 <=? n) && (n <=? 70) then n - 65 + 10
   else 0)%N.

Inductive EscapeError : Type := InvalidEscape.

Fixpoint unescape (s : string) : option string :=
  match s with
  | EmptyString => Some EmptyString
  | String "%"%char (String h1 (String h2 rest)) =>
      if ishex h1 && ishex h2
      then String (ascii_of_N (unhex h1 * 16 + unhex h2)) <$> unescape rest
      else None
  | String "%"%char _ => None
  | String "+"%char rest => String " "%char <$> unescape rest
  | String c rest => String c <$> unescape rest
  end.

Definition QueryUnescape (s : string) : string * option EscapeError :=
  match unescape s with
  | Some t => (t, None)
  | None => ("", Some InvalidEscape)
  end.

End url.

(** [title, _ := url.QueryUnescape(...)] *)
Definition unescapedTitle (s : string) : string := (url.QueryUnescape s).1.

(** A string without [%] and without [+]. *)
Fixpoint plain (s : string) : bool :=
  match s with
  | EmptyString => true
  | String c s' =>
      negb (Ascii.eqb c "%") && negb (Ascii.eqb c "+") && plain s'
  end.

(** ** [defaultHandler]

    The handler serves one file. Its response writer is modelled with the
    contract of [http.ResponseWriter]: [WriteHeader] sends the status with
    the headers as they are at that moment, a later change of the header
    map has no effect, and the first [Write] sends status 200 when no
    status was sent before. *)








(** ** Vocabulary of the further properties *)

(** A cast column the graph loop gets through: no list element other than
    a string (an absent, null or non-list column reads as the empty list). *)
Definition castDecodable (record : neo4j.record) : Prop :=
  Forall isString (graphCast record).

#[global] Instance castDecodable_dec record : Decision (castDecodable record).
Proof. unfold castDecodable. apply _. Defined.

(** The graph row a record stands for. *)
Definition graphRowOf (record : neo4j.record) : GraphRow :=
  (graphTitle record, omap stringOf (graphCast record)).

(** A handler run against a writer that fails with [werr], if at all. *)
Definition serveOn (werr : option string) (h : handler unit)
  : result unit * HandlerState :=
  h {| hs_w := {| Header := ∅; Written := []; WriteError := werr |};
       hs_log := [] |}.

(** What every run of a JSON handler keeps to: the content type is set, at
    most one thing happens among writing a body and logging a line, and a
    panic comes before either. *)
Definition orderly (out : result unit * HandlerState) : Prop :=
  Header (hs_w out.2) = {[ "Content-Type" := ["application/json"] ]}
  ∧ (length (Written (hs_w out.2)) + length (hs_log out.2) ≤ 1)%nat
  ∧ (∀ p, out.1 = Panic p → Written (hs_w out.2) = [] ∧ hs_log out.2 = []).

(** * Properties *)

(** ** The graph projection refines the algorithm of the specification *)

Lemma rangeM_app {S A : Type} (body : S → A → result S) (l1 l2 : list A) (s : S) :
  rangeM body (l1 ++ l2) s = s' ← rangeM body l1 s; rangeM body l2 s'.
Proof.
  revert s. induction l1 as [|x l1 IH]; intros s; simpl; [done|].
  destruct (body s x) as [s'|p]; simpl; [apply IH|done].
Qed.

(** A loop whose body never panics is a left fold. *)
Lemma rangeM_total {S A B : Type} (body : S → A → result S) (f : S → B → S)
    (enc : B → A) (l : list B) (s : S) :
  (∀ s x, body s (enc x) = Ok (f s x)) →
  rangeM body (enc <$> l) s = Ok (foldl f s l).
Proof.
  intros Hbody. revert s. induction l as [|x l IH]; intros s; simpl; [done|].
  rewrite Hbody. simpl. apply IH.
Qed.

Lemma actor_test_decide (a : string) (n : Node) :
  any_eq_string (VString a) (Node_Title n) && String.eqb (Node_Label n) "actor"
  = bool_decide (isActorNamed a n).
Proof.
  unfold isActorNamed. simpl.
  destruct (String.eqb_spec a (Node_Title n)) as [Ha|Ha];
    destruct (String.eqb_spec (Node_Label n) "actor") as [Hl|Hl]; simpl;
    symmetry; first [apply bool_decide_eq_true | apply bool_decide_eq_false];
    intuition congruence.
Qed.

(** The search loop returns the position of the first actor node of that
    name, and [-1] when there is none. *)
Lemma searchActor_find (a : string) (nodes : list Node) (i : Z) :
  searchActor (VString a) nodes i =
  match list_find (isActorNamed a) nodes with
  | Some (j, _) => i + Z.of_nat j
  | None => -1
  end.
Proof.
  revert i. induction nodes as [|n nodes IH]; intros i; [done|].
  cbn [searchActor]. rewrite actor_test_decide.
  change (list_find (isActorNamed a) (n :: nodes))
    with (if decide (isActorNamed a n) then Some (0%nat, n)
          else prod_map S id <$> list_find (isActorNamed a) nodes).
  case_bool_decide as Hn.
  - rewrite decide_True by done. lia.
  - rewrite decide_False by done. rewrite IH.
    destruct (list_find (isActorNamed a) nodes) as [[j x]|]; simpl; lia.
Qed.

Lemma linkActor_spec (k : nat) (g : D3Response) (a : string) :
  linkActor (Z.of_nat k) g (VString a) = Ok (spec_linkActor k g a).
Proof.
  unfold linkActor, spec_linkActor. rewrite searchActor_find.
  destruct (list_find (isActorNamed a) (D3_Nodes g)) as [[j x]|].
  - destruct (Z.eqb_spec (0 + Z.of_nat j) (-1)) as [?|_]; [lia|].
    unfold mkLink. by rewrite Z.add_0_l.
  - simpl. unfold mkLink, mkNode, len. rewrite length_app. simpl.
    by replace (Z.of_nat (length (D3_Nodes g) + 1) - 1)
         with (Z.of_nat (length (D3_Nodes g))) by lia.
Qed.

Lemma graphRecord_spec (g : D3Response) (row : GraphRow) :
  graphRecord g (recordOfGraphRow row) = Ok (spec_row g row).
Proof.
  unfold graphRecord, spec_row, recordOfGraphRow. simpl.
  replace (len (D3_Nodes g ++ [{| Node_Title := row.1; Node_Label := "movie" |}]) - 1)
    with (Z.of_nat (length (D3_Nodes g)))
    by (unfold len; rewrite length_app; simpl; lia).
  apply rangeM_total. intros. apply linkActor_spec.
Qed.

(** On the records of graph rows the projection never panics and computes
    the graph of the specification. *)
Lemma graphProjection_spec (rows : list GraphRow) :
  graphProjection (recordOfGraphRow <$> rows) = Ok (spec_graph rows).
Proof. apply rangeM_total. intros. apply graphRecord_spec. Qed.

Lemma topGun_spec : spec_graph topGunRows = topGunGraph.
Proof. reflexivity. Qed.

(** ** Actor nodes: lookup, uniqueness and stability under appending *)

Lemma find_actor_Some (a : string) (nodes : list Node) (i : nat) (n : Node) :
  list_find (isActorNamed a) nodes = Some (i, n) →
  n = mkNode a "actor" ∧ nodes !! i = Some n.
Proof.
  intros (Hi & [Hl Ht] & _)%list_find_Some. split; [|done].
  destruct n as [t l]. simpl in *. by subst.
Qed.

Lemma actorTitlesOf_elem (a : string) (nodes : list Node) :
  a ∈ actorTitlesOf nodes ↔ mkNode a "actor" ∈ nodes.
Proof.
  unfold actorTitlesOf. rewrite list_elem_of_fmap. split.
  - intros ([t l] & -> & [Hl Hin]%list_elem_of_filter). simpl in *. by subst.
  - intros Hin. exists (mkNode a "actor"). split; [done|].
    by apply list_elem_of_filter.
Qed.

Lemma find_actor_None (a : string) (nodes : list Node) :
  list_find (isActorNamed a) nodes = None ↔ a ∉ actorTitlesOf nodes.
Proof.
  rewrite list_find_None, Forall_forall, actorTitlesOf_elem. split.
  - intros H Hin. by apply (H _ Hin).
  - intros H [t l] Hin [Hl Ht]. simpl in *. by subst.
Qed.

Lemma actorTitlesOf_app (l1 l2 : list Node) :
  actorTitlesOf (l1 ++ l2) = actorTitlesOf l1 ++ actorTitlesOf l2.
Proof. unfold actorTitlesOf. by rewrite filter_app, fmap_app. Qed.

Lemma movieTitlesOf_app (l1 l2 : list Node) :
  movieTitlesOf (l1 ++ l2) = movieTitlesOf l1 ++ movieTitlesOf l2.
Proof. unfold movieTitlesOf. by rewrite filter_app, fmap_app. Qed.

Lemma actorIndex_lookup (a : string) (nodes : list Node) :
  a ∈ actorTitlesOf nodes → nodes !! actorIndex nodes a = Some (mkNode a "actor").
Proof.
  intros Hin. unfold actorIndex.
  destruct (list_find (isActorNamed a) nodes) as [[i n]|] eqn:Hfind.
  - by apply find_actor_Some in Hfind as [-> ?].
  - by apply find_actor_None in Hfind.
Qed.

Lemma actorIndex_app (a : string) (nodes more : list Node) :
  a ∈ actorTitlesOf nodes → actorIndex (nodes ++ more) a = actorIndex nodes a.
Proof.
  intros Hin. unfold actorIndex.
  destruct (list_find (isActorNamed a) nodes) as [[i n]|] eqn:Hfind.
  - by rewrite (list_find_app_l _ _ _ _ _ Hfind).
  - by apply find_actor_None in Hfind.
Qed.

Lemma NoDup_filter_lookup {A : Type} (P : A → Prop) `{!∀ x, Decision (P x)}
    (l : list A) (i j : nat) (x : A) :
  NoDup (filter P l) → P x → l !! i = Some x → l !! j = Some x → i = j.
Proof.
  revert i j. induction l as [|y l IH]; intros i j Hnd HP Hi Hj; [done|].
  destruct (decide (P y)) as [Hy|Hy].
  - rewrite filter_cons_True in Hnd by done.
    apply NoDup_cons in Hnd as [Hnotin Hnd].
    destruct i as [|i], j as [|j]; simplify_eq/=; [done| | |f_equal; eauto].
    + destruct Hnotin. apply list_elem_of_filter. eauto using list_elem_of_lookup_2.
    + destruct Hnotin. apply list_elem_of_filter. eauto using list_elem_of_lookup_2.
  - rewrite filter_cons_False in Hnd by done.
    destruct i as [|i], j as [|j]; simplify_eq/=; [done..|f_equal; eauto].
Qed.

(** With distinct actor titles, an actor node sits at the position the
    lookup finds. *)
Lemma actor_unique (a : string) (nodes : list Node) (i : nat) :
  NoDup (actorTitlesOf nodes) → nodes !! i = Some (mkNode a "actor") →
  i = actorIndex nodes a.
Proof.
  intros Hnd Hi. apply NoDup_fmap_1 in Hnd.
  assert (a ∈ actorTitlesOf nodes) as Hin.
  { apply actorTitlesOf_elem. eauto using list_elem_of_lookup_2. }
  by eapply NoDup_filter_lookup, actorIndex_lookup.
Qed.

(** ** First occurrences *)

Lemma addNew_elem (l : list string) (a x : string) :
  x ∈ addNew l a ↔ x ∈ l ∨ x = a.
Proof.
  unfold addNew. case_decide.
  - naive_solver.
  - rewrite elem_of_app, list_elem_of_singleton. naive_solver.
Qed.

Lemma addNew_NoDup (l : list string) (a : string) : NoDup l → NoDup (addNew l a).
Proof.
  intros Hnd. unfold addNew. case_decide; [done|].
  apply NoDup_app. split_and!; [done| |apply NoDup_singleton].
  intros x Hx ->%list_elem_of_singleton. done.
Qed.

Lemma foldl_addNew_elem (names l : list string) (x : string) :
  x ∈ foldl addNew l names ↔ x ∈ l ∨ x ∈ names.
Proof.
  revert l. induction names as [|a names IH]; intros l; simpl.
  - rewrite elem_of_nil. naive_solver.
  - rewrite IH, addNew_elem, elem_of_cons. naive_solver.
Qed.

Lemma foldl_addNew_NoDup (names l : list string) :
  NoDup l → NoDup (foldl addNew l names).
Proof.
  revert l. induction names as [|a names IH]; intros l Hnd; simpl; [done|].
  by apply IH, addNew_NoDup.
Qed.

Lemma distinct_elem (names : list string) (x : string) :
  x ∈ distinct names ↔ x ∈ names.
Proof. unfold distinct. rewrite foldl_addNew_elem, elem_of_nil. naive_solver. Qed.

Lemma distinct_NoDup (names : list string) : NoDup (distinct names).
Proof. apply foldl_addNew_NoDup, NoDup_nil_2. Qed.

(** The number of distinct names does not depend on which occurrence of a
    name is kept. *)
Lemma distinct_length (names : list string) :
  length (distinct names) = length (remove_dups names).
Proof.
  apply Permutation_length, NoDup_Permutation.
  - apply distinct_NoDup.
  - apply NoDup_remove_dups.
  - intros x. by rewrite distinct_elem, elem_of_remove_dups.
Qed.

(** ** One actor name *)

Lemma spec_linkActor_Nodes (k : nat) (g : D3Response) (a : string) :
  D3_Nodes (spec_linkActor k g a) =
  D3_Nodes g ++ (if decide (a ∈ actorTitlesOf (D3_Nodes g)) then []
                 else [mkNode a "actor"]).
Proof.
  unfold spec_linkActor.
  destruct (list_find (isActorNamed a) (D3_Nodes g)) as [[i n]|] eqn:Hfind; simpl.
  - rewrite decide_True; [by rewrite app_nil_r|].
    apply find_actor_Some in Hfind as [-> Hi].
    apply actorTitlesOf_elem. eauto using list_elem_of_lookup_2.
  - apply find_actor_None in Hfind. by rewrite decide_False.
Qed.

Lemma actorIndex_new (a : string) (nodes : list Node) :
  a ∉ actorTitlesOf nodes → actorIndex (nodes ++ [mkNode a "actor"]) a = length nodes.
Proof.
  intros Hnotin%find_actor_None. unfold actorIndex.
  rewrite list_find_app_r by done. simpl.
  rewrite decide_True by done. done.
Qed.

Lemma spec_linkActor_Links (k : nat) (g : D3Response) (a : string) :
  D3_Links (spec_linkActor k g a) =
  D3_Links g ++ [mkLink (actorIndex (D3_Nodes (spec_linkActor k g a)) a) k].
Proof.
  unfold spec_linkActor.
  destruct (list_find (isActorNamed a) (D3_Nodes g)) as [[i n]|] eqn:Hfind; simpl.
  - unfold actorIndex. by rewrite Hfind.
  - apply find_actor_None in Hfind. by rewrite actorIndex_new.
Qed.

Lemma spec_linkActor_actorTitles (k : nat) (g : D3Response) (a : string) :
  actorTitlesOf (D3_Nodes (spec_linkActor k g a)) = addNew (actorTitlesOf (D3_Nodes g)) a.
Proof.
  rewrite spec_linkActor_Nodes, actorTitlesOf_app. unfold addNew.
  case_decide; [by rewrite app_nil_r|done].
Qed.

Lemma spec_linkActor_movieTitles (k : nat) (g : D3Response) (a : string) :
  movieTitlesOf (D3_Nodes (spec_linkActor k g a)) = movieTitlesOf (D3_Nodes g).
Proof.
  rewrite spec_linkActor_Nodes, movieTitlesOf_app.
  case_decide; by rewrite app_nil_r.
Qed.

(** ** The actor names of one row *)

Section cast.
Variable k : nat.

Lemma cast_Nodes (names : list string) (g : D3Response) :
  ∃ more, D3_Nodes (foldl (spec_linkActor k) g names) = D3_Nodes g ++ more.
Proof.
  revert g. induction names as [|a names IH]; intros g; simpl.
  - exists []. by rewrite app_nil_r.
  - destruct (IH (spec_linkActor k g a)) as [more ->].
    rewrite spec_linkActor_Nodes, <-app_assoc. eauto.
Qed.

Lemma cast_actorTitles (names : list string) (g : D3Response) :
  actorTitlesOf (D3_Nodes (foldl (spec_linkActor k) g names)) =
  foldl addNew (actorTitlesOf (D3_Nodes g)) names.
Proof.
  revert g. induction names as [|a names IH]; intros g; simpl; [done|].
  by rewrite IH, spec_linkActor_actorTitles.
Qed.

Lemma cast_movieTitles (names : list string) (g : D3Response) :
  movieTitlesOf (D3_Nodes (foldl (spec_linkActor k) g names)) =
  movieTitlesOf (D3_Nodes g).
Proof.
  revert g. induction names as [|a names IH]; intros g; simpl; [done|].
  by rewrite IH, spec_linkActor_movieTitles.
Qed.

(** One link per name, in order, from the node of the name to node [k]. *)
Lemma cast_Links (names : list string) (g : D3Response) :
  let g' := foldl (spec_linkActor k) g names in
  D3_Links g' = D3_Links g ++ ((λ a, mkLink (actorIndex (D3_Nodes g') a) k) <$> names).
Proof.
  revert g. induction names as [|a names IH]; intros g; simpl.
  - by rewrite app_nil_r.
  - rewrite IH, spec_linkActor_Links, <-app_assoc. simpl. do 3 f_equal.
    destruct (cast_Nodes names (spec_linkActor k g a)) as [more ->].
    rewrite actorIndex_app; [done|].
    rewrite spec_linkActor_actorTitles, addNew_elem. by right.
Qed.

End cast.

(** ** One row, and a sequence of rows from any starting graph *)

Lemma actorTitlesOf_movie (nodes : list Node) (t : string) :
  actorTitlesOf (nodes ++ [mkNode t "movie"]) = actorTitlesOf nodes.
Proof. rewrite actorTitlesOf_app. unfold actorTitlesOf. simpl. apply app_nil_r. Qed.

Lemma movieTitlesOf_movie (nodes : list Node) (t : string) :
  movieTitlesOf (nodes ++ [mkNode t "movie"]) = movieTitlesOf nodes ++ [t].
Proof. by rewrite movieTitlesOf_app. Qed.

Lemma spec_row_Nodes (g : D3Response) (r : GraphRow) :
  ∃ more, D3_Nodes (spec_row g r) = D3_Nodes g ++ mkNode r.1 "movie" :: more.
Proof.
  unfold spec_row.
  destruct (cast_Nodes (length (D3_Nodes g)) r.2
              {| D3_Nodes := D3_Nodes g ++ [mkNode r.1 "movie"];
                 D3_Links := D3_Links g |}) as [more ->].
  exists more. simpl. by rewrite <-app_assoc.
Qed.

Lemma spec_row_actorTitles (g : D3Response) (r : GraphRow) :
  actorTitlesOf (D3_Nodes (spec_row g r)) = foldl addNew (actorTitlesOf (D3_Nodes g)) r.2.
Proof. unfold spec_row. rewrite cast_actorTitles. simpl. by rewrite actorTitlesOf_movie. Qed.

Lemma spec_row_movieTitles (g : D3Response) (r : GraphRow) :
  movieTitlesOf (D3_Nodes (spec_row g r)) = movieTitlesOf (D3_Nodes g) ++ [r.1].
Proof. unfold spec_row. rewrite cast_movieTitles. simpl. by rewrite movieTitlesOf_movie. Qed.

(** The links of a row: one per actor name, in order, all to the movie node
    of the row, which sits where the node list ended before the row. *)
Lemma spec_row_Links (g : D3Response) (r : GraphRow) :
  D3_Links (spec_row g r) =
  D3_Links g ++ ((λ a, mkLink (actorIndex (D3_Nodes (spec_row g r)) a)
                              (length (D3_Nodes g))) <$> r.2).
Proof. unfold spec_row. by rewrite cast_Links. Qed.

Lemma rows_Nodes (rows : list GraphRow) (g : D3Response) :
  ∃ more, D3_Nodes (foldl spec_row g rows) = D3_Nodes g ++ more.
Proof.
  revert g. induction rows as [|r rows IH]; intros g; simpl.
  - exists []. by rewrite app_nil_r.
  - destruct (IH (spec_row g r)) as [more ->].
    destruct (spec_row_Nodes g r) as [more' ->]. rewrite <-app_assoc. eauto.
Qed.

Lemma foldl_concat {A B : Type} (f : A → B → A) (ls : list (list B)) (a : A) :
  foldl f a (concat ls) = foldl (foldl f) a ls.
Proof.
  revert a. induction ls as [|l ls IH]; intros a; simpl; [done|].
  by rewrite foldl_app, IH.
Qed.

Lemma elem_of_concat {A : Type} (x : A) (ls : list (list A)) :
  x ∈ concat ls ↔ ∃ l, x ∈ l ∧ l ∈ ls.
Proof.
  induction ls as [|l ls IH]; simpl.
  - rewrite elem_of_nil. split; [done|]. by intros (l & _ & ?%elem_of_nil).
  - rewrite elem_of_app, IH. split.
    + intros [?|(l' & ? & ?)]; [exists l|exists l']; rewrite elem_of_cons; eauto.
    + intros (l' & ? & [->|?]%elem_of_cons); eauto.
Qed.

Lemma rows_actorTitles (rows : list GraphRow) (g : D3Response) :
  actorTitlesOf (D3_Nodes (foldl spec_row g rows)) =
  foldl addNew (actorTitlesOf (D3_Nodes g)) (castNames rows).
Proof.
  unfold castNames. rewrite foldl_concat.
  revert g. induction rows as [|r rows IH]; intros g; simpl; [done|].
  by rewrite IH, spec_row_actorTitles.
Qed.

Lemma rows_movieTitles (rows : list GraphRow) (g : D3Response) :
  movieTitlesOf (D3_Nodes (foldl spec_row g rows)) = movieTitlesOf (D3_Nodes g) ++ rows.*1.
Proof.
  revert g. induction rows as [|r rows IH]; intros g; simpl.
  - by rewrite app_nil_r.
  - by rewrite IH, spec_row_movieTitles, <-app_assoc.
Qed.

(** Later rows only add links, and only to nodes appended after the
    starting graph. *)
Lemma rows_Links (rows : list GraphRow) (g : D3Response) :
  ∃ new, D3_Links (foldl spec_row g rows) = D3_Links g ++ new ∧
         Forall (λ l, len (D3_Nodes g) ≤ Link_Target l
                      < len (D3_Nodes (foldl spec_row g rows))) new.
Proof.
  revert g. induction rows as [|r rows IH]; intros g; simpl.
  - exists []. by rewrite app_nil_r.
  - destruct (IH (spec_row g r)) as (new & -> & Hnew).
    rewrite spec_row_Links, <-app_assoc. eexists. split; [done|].
    destruct (rows_Nodes rows (spec_row g r)) as [more Hmore].
    destruct (spec_row_Nodes g r) as [more' Hmore'].
    assert (len (D3_Nodes g) < len (D3_Nodes (spec_row g r))) as Hlt.
    { unfold len. rewrite Hmore', length_app. simpl. lia. }
    assert (len (D3_Nodes (spec_row g r)) ≤ len (D3_Nodes (foldl spec_row (spec_row g r) rows))) as Hle.
    { unfold len. rewrite Hmore, length_app. lia. }
    apply Forall_app. split.
    + apply Forall_fmap, Forall_forall. intros a _. simpl. unfold len in *. lia.
    + eapply Forall_impl; [exact Hnew|]. simpl. intros l ?. lia.
Qed.

(** ** The whole graph *)

Lemma spec_graph_snoc (rows : list GraphRow) (r : GraphRow) :
  spec_graph (rows ++ [r]) = spec_row (spec_graph rows) r.
Proof. unfold spec_graph. by rewrite foldl_snoc. Qed.

Lemma spec_graph_split (rows : list GraphRow) (i : nat) (r : GraphRow) :
  rows !! i = Some r →
  spec_graph rows =
  foldl spec_row (spec_row (spec_graph (take i rows)) r) (drop (S i) rows).
Proof.
  intros Hi. rewrite <-(take_drop_middle rows i r Hi) at 1.
  unfold spec_graph. by rewrite foldl_app.
Qed.

Lemma graph_actorTitles (rows : list GraphRow) :
  actorTitlesOf (D3_Nodes (spec_graph rows)) = distinct (castNames rows).
Proof. unfold spec_graph. by rewrite rows_actorTitles. Qed.

Lemma graph_movieTitles (rows : list GraphRow) :
  movieTitlesOf (D3_Nodes (spec_graph rows)) = rows.*1.
Proof. unfold spec_graph. by rewrite rows_movieTitles. Qed.

Lemma graph_actor_lookup (rows : list GraphRow) (a : string) :
  a ∈ castNames rows →
  D3_Nodes (spec_graph rows) !! actorIndex (D3_Nodes (spec_graph rows)) a
  = Some (mkNode a "actor").
Proof.
  intros Ha. apply actorIndex_lookup. by rewrite graph_actorTitles, distinct_elem.
Qed.

Lemma graph_actor_unique (rows : list GraphRow) (a : string) (i : nat) :
  D3_Nodes (spec_graph rows) !! i = Some (mkNode a "actor") →
  i = actorIndex (D3_Nodes (spec_graph rows)) a.
Proof. apply actor_unique. rewrite graph_actorTitles. apply distinct_NoDup. Qed.

(** ** The movie node and the links of the [i]-th row *)

Section row_of_graph.
Variables (rows : list GraphRow) (i : nat) (r : GraphRow).
Hypothesis Hrow : rows !! i = Some r.

Let g0 := spec_graph (take i rows).
Let g1 := spec_row g0 r.
Let G := spec_graph rows.

Lemma graph_after_row : ∃ more, D3_Nodes G = D3_Nodes g1 ++ more.
Proof.
  subst G. rewrite (spec_graph_split rows i r Hrow). apply rows_Nodes.
Qed.

Lemma movieIndex_lookup :
  D3_Nodes G !! movieIndex rows i = Some (mkNode r.1 "movie").
Proof.
  destruct graph_after_row as [more ->].
  destruct (spec_row_Nodes g0 r) as [more' Hg1]. subst g1. rewrite Hg1.
  rewrite <-!app_assoc. unfold movieIndex. fold g0.
  by apply list_lookup_middle.
Qed.

Lemma row_name_in_cast (a : string) : a ∈ r.2 → a ∈ castNames rows.
Proof.
  intros Ha. unfold castNames. apply elem_of_concat.
  exists r.2. split; [done|].
  apply list_elem_of_fmap. exists r. eauto using list_elem_of_lookup_2.
Qed.

Lemma row_actorIndex (a : string) :
  a ∈ r.2 → actorIndex (D3_Nodes G) a = actorIndex (D3_Nodes g1) a.
Proof.
  intros Ha. destruct graph_after_row as [more ->].
  apply actorIndex_app. subst g1.
  rewrite spec_row_actorTitles, foldl_addNew_elem. by right.
Qed.

(** The links of the graph: those of the earlier rows, then those of row
    [i], then those of the later rows. *)
Lemma graph_Links_split :
  ∃ before after,
    D3_Links G =
      before
      ++ ((λ a, mkLink (actorIndex (D3_Nodes G) a) (movieIndex rows i)) <$> r.2)
      ++ after ∧
    Forall (λ l, Link_Target l < Z.of_nat (movieIndex rows i)) before ∧
    Forall (λ l, Z.of_nat (movieIndex rows i) < Link_Target l) after.
Proof.
  destruct (rows_Links (take i rows) emptyGraph) as (before & Hbefore & Hb).
  destruct (rows_Links (drop (S i) rows) g1) as (after & Hafter & Ha).
  pose proof (spec_graph_split rows i r Hrow) as Hsplit.
  change (spec_row (spec_graph (take i rows)) r) with g1 in Hsplit.
  change (foldl spec_row emptyGraph (take i rows)) with g0 in Hbefore, Hb.
  rewrite <-Hsplit in Hafter, Ha. change (spec_graph rows) with G in Hafter, Ha.
  pose proof (spec_row_Links g0 r) as Hlinks.
  change (spec_row g0 r) with g1 in Hlinks.
  destruct (spec_row_Nodes g0 r) as [more Hg1].
  change (spec_row g0 r) with g1 in Hg1.
  exists before, after. split_and!.
  - rewrite Hafter, Hlinks, Hbefore. simpl. rewrite <-app_assoc. do 2 f_equal.
    apply list_fmap_ext. intros _ a Hin%list_elem_of_lookup_2.
    by rewrite row_actorIndex.
  - eapply Forall_impl; [exact Hb|]. simpl. by intros l [_ Hl].
  - eapply Forall_impl; [exact Ha|]. simpl. intros l [Hl _].
    unfold movieIndex. fold g0. revert Hl. unfold len.
    rewrite Hg1, length_app. simpl. lia.
Qed.

Lemma row_link (a : string) :
  a ∈ r.2 →
  mkLink (actorIndex (D3_Nodes G) a) (movieIndex rows i) ∈ D3_Links G.
Proof.
  intros Ha. destruct graph_Links_split as (before & after & -> & _).
  rewrite !elem_of_app. right. left.
  apply list_elem_of_fmap. eauto.
Qed.

End row_of_graph.

Lemma movieIndex_take (rows : list GraphRow) (i j : nat) :
  (i ≤ j)%nat → movieIndex (take j rows) i = movieIndex rows i.
Proof. intros Hij. unfold movieIndex. by rewrite take_take, Nat.min_l. Qed.

(** Movie nodes appear in row order: a later row has a larger index. *)
Lemma movieIndex_lt (rows : list GraphRow) (i j : nat) :
  (i < j)%nat → (j ≤ length rows)%nat → (movieIndex rows i < movieIndex rows j)%nat.
Proof.
  intros Hij Hj.
  destruct (lookup_lt_is_Some_2 (take j rows) i) as [r Hr].
  { rewrite length_take. lia. }
  pose proof (movieIndex_lookup (take j rows) i r Hr) as Hlookup.
  apply lookup_lt_Some in Hlookup.
  rewrite movieIndex_take in Hlookup by lia. exact Hlookup.
Qed.

Lemma movieIndex_inj (rows : list GraphRow) (i j : nat) :
  (i < length rows)%nat → (j < length rows)%nat →
  movieIndex rows i = movieIndex rows j → i = j.
Proof.
  intros Hi Hj Heq.
  destruct (Nat.lt_trichotomy i j) as [Hlt|[?|Hlt]]; [|done|].
  - pose proof (movieIndex_lt rows i j Hlt). lia.
  - pose proof (movieIndex_lt rows j i Hlt). lia.
Qed.

(** ** Counting links *)

Lemma occurrences_app {A : Type} `{EqDecision A} (x : A) (l1 l2 : list A) :
  occurrences x (l1 ++ l2) = (occurrences x l1 + occurrences x l2)%nat.
Proof. unfold occurrences. by rewrite filter_app, length_app. Qed.

Lemma occurrences_none {A : Type} `{EqDecision A} (x : A) (l : list A) :
  Forall (λ y, y ≠ x) l → occurrences x l = 0%nat.
Proof.
  unfold occurrences. induction 1 as [|y l Hy _ IH]; [done|].
  by rewrite filter_cons_False by congruence.
Qed.

Lemma occurrences_fmap {A B : Type} `{EqDecision A, EqDecision B}
    (f : A → B) (x : A) (l : list A) :
  (∀ y, y ∈ l → f y = f x → y = x) →
  occurrences (f x) (f <$> l) = occurrences x l.
Proof.
  unfold occurrences. induction l as [|y l IH]; intros Hinj; [done|].
  rewrite fmap_cons. destruct (decide (y = x)) as [->|Hne].
  - rewrite !filter_cons_True by done. simpl. f_equal.
    apply IH. intros z Hz. apply Hinj. by right.
  - rewrite !filter_cons_False.
    + apply IH. intros z Hz. apply Hinj. by right.
    + congruence.
    + intros Hf. apply Hne. symmetry in Hf. apply Hinj; [by left|done].
Qed.

Lemma mkLink_inj (s t s' t' : nat) : mkLink s t = mkLink s' t' → s = s' ∧ t = t'.
Proof. unfold mkLink. intros [= Hs Ht]. lia. Qed.

(** The graph holds as many links from the node of [a] to the movie node of
    row [i] as the cast of row [i] holds occurrences of [a]. *)
Lemma row_link_count (rows : list GraphRow) (i : nat) (r : GraphRow) (a : string) :
  rows !! i = Some r → a ∈ r.2 →
  occurrences (mkLink (actorIndex (D3_Nodes (spec_graph rows)) a) (movieIndex rows i))
              (D3_Links (spec_graph rows))
  = occurrences a r.2.
Proof.
  intros Hrow Ha.
  destruct (graph_Links_split rows i r Hrow) as (before & after & -> & Hb & Haft).
  rewrite !occurrences_app.
  rewrite (occurrences_none _ before), (occurrences_none _ after); cycle 1.
  - eapply Forall_impl; [exact Haft|]. simpl. intros l Hl ->. simpl in Hl. lia.
  - eapply Forall_impl; [exact Hb|]. simpl. intros l Hl ->. simpl in Hl. lia.
  - rewrite Nat.add_0_r. simpl.
    apply (occurrences_fmap
             (λ a, mkLink (actorIndex (D3_Nodes (spec_graph rows)) a) (movieIndex rows i))).
    intros a' Ha' [Hidx _]%mkLink_inj.
    pose proof (graph_actor_lookup rows a' (row_name_in_cast rows i r Hrow a' Ha')) as H1.
    pose proof (graph_actor_lookup rows a (row_name_in_cast rows i r Hrow a Ha)) as H2.
    rewrite Hidx in H1. rewrite H1 in H2. by injection H2.
Qed.

(** ** Links refer to an actor node and a movie node *)

Lemma linkOk_app (nodes more : list Node) (l : Link) :
  linkOk nodes l → linkOk (nodes ++ more) l.
Proof.
  intros (s & t & a & m & -> & Hs & Ht).
  exists s, t, a, m. eauto using lookup_app_l_Some.
Qed.

Lemma graph_linkOk (rows : list GraphRow) :
  Forall (linkOk (D3_Nodes (spec_graph rows))) (D3_Links (spec_graph rows)).
Proof.
  induction rows as [|r rows IH] using rev_ind; [by constructor|].
  rewrite spec_graph_snoc, spec_row_Links.
  destruct (spec_row_Nodes (spec_graph rows) r) as [more Hmore].
  apply Forall_app. split.
  - rewrite Hmore. eapply Forall_impl; [exact IH|]. intros l. apply linkOk_app.
  - apply Forall_fmap, Forall_forall. intros a Ha. simpl.
    exists (actorIndex (D3_Nodes (spec_row (spec_graph rows) r)) a),
           (length (D3_Nodes (spec_graph rows))), a, r.1.
    split_and!; [done| |].
    + apply actorIndex_lookup.
      rewrite spec_row_actorTitles, foldl_addNew_elem. by right.
    + rewrite Hmore. by apply list_lookup_middle.
Qed.

(** ** The links in closed form *)

Lemma castNames_snoc (rows : list GraphRow) (r : GraphRow) :
  castNames (rows ++ [r]) = castNames rows ++ r.2.
Proof.
  unfold castNames. rewrite fmap_app, concat_app. simpl. by rewrite app_nil_r.
Qed.

Lemma rowLinks_stable (nodes more : list Node) (t : nat) (names : list string) :
  (∀ a, a ∈ names → a ∈ actorTitlesOf nodes) →
  rowLinks (nodes ++ more) t names = rowLinks nodes t names.
Proof.
  intros Hin. apply list_fmap_ext. intros _ a Ha%list_elem_of_lookup_2.
  by rewrite actorIndex_app by auto.
Qed.

Lemma graph_Links_closed (rows : list GraphRow) :
  D3_Links (spec_graph rows) =
  concat (imap (λ i r, rowLinks (D3_Nodes (spec_graph rows)) (movieIndex rows i) r.2) rows).
Proof.
  induction rows as [|r rows IH] using rev_ind; [done|].
  rewrite imap_app, concat_app. simpl. rewrite app_nil_r, Nat.add_0_r.
  rewrite spec_graph_snoc, spec_row_Links. f_equal.
  - rewrite IH at 1. f_equal. apply imap_ext. intros i ri Hi. simpl.
    destruct (spec_row_Nodes (spec_graph rows) r) as [more ->].
    rewrite rowLinks_stable.
    + f_equal. unfold movieIndex. rewrite take_app_le; [done|].
      apply lookup_lt_Some in Hi. by apply Nat.lt_le_incl.
    + intros a Ha. rewrite graph_actorTitles, distinct_elem.
      eauto using row_name_in_cast.
  - unfold rowLinks, movieIndex. by rewrite take_app_length.
Qed.

(** The sources of the links, in order, are the nodes of the cast names. *)
Lemma graph_Links_sources (rows : list GraphRow) :
  Link_Source <$> D3_Links (spec_graph rows) =
  (λ a, Z.of_nat (actorIndex (D3_Nodes (spec_graph rows)) a)) <$> castNames rows.
Proof.
  induction rows as [|r rows IH] using rev_ind; [done|].
  rewrite castNames_snoc, spec_graph_snoc, spec_row_Links, !fmap_app. f_equal.
  - rewrite IH. apply list_fmap_ext. intros _ a Ha%list_elem_of_lookup_2.
    destruct (spec_row_Nodes (spec_graph rows) r) as [more ->].
    rewrite actorIndex_app; [done|]. by rewrite graph_actorTitles, distinct_elem.
  - by rewrite <-list_fmap_compose.
Qed.

Lemma graph_Links_length (rows : list GraphRow) :
  length (D3_Links (spec_graph rows)) = length (castNames rows).
Proof.
  rewrite <-(length_fmap Link_Source), graph_Links_sources. apply length_fmap.
Qed.

(** The links leaving the node of [a] are as many as the occurrences of [a]
    in the casts of all rows. *)
Lemma graph_source_count (rows : list GraphRow) (a : string) :
  a ∈ castNames rows →
  occurrences (Z.of_nat (actorIndex (D3_Nodes (spec_graph rows)) a))
              (Link_Source <$> D3_Links (spec_graph rows))
  = occurrences a (castNames rows).
Proof.
  intros Ha. rewrite graph_Links_sources.
  apply (occurrences_fmap (λ a, Z.of_nat (actorIndex (D3_Nodes (spec_graph rows)) a))).
  intros a' Ha' Hidx%Nat2Z.inj.
  pose proof (graph_actor_lookup rows a' Ha') as H1.
  pose proof (graph_actor_lookup rows a Ha) as H2.
  rewrite Hidx in H1. rewrite H1 in H2. by injection H2.
Qed.

(** ** Arbitrary records: a run that does not panic is a run on graph rows *)

Lemma searchActor_not_string (v : value) (nodes : list Node) (i : Z) :
  (∀ s, v ≠ VString s) → searchActor v nodes i = -1.
Proof.
  intros Hv. revert i. induction nodes as [|n nodes IH]; intros i; simpl; [done|].
  destruct v; simpl; try apply IH. by destruct (Hv s).
Qed.

(** An element of the cast that is not a string fails the assertion
    [actor.(string)]: no node can match it, so a node is to be appended. *)
Lemma linkActor_not_string (k : Z) (g : D3Response) (v : value) :
  (∀ s, v ≠ VString s) → linkActor k g v = Panic (InterfaceConversion v).
Proof.
  intros Hv. unfold linkActor. rewrite searchActor_not_string by done. simpl.
  destruct v; try done. by destruct (Hv s).
Qed.

Lemma value_string_dec (v : value) : (∃ s, v = VString s) ∨ (∀ s, v ≠ VString s).
Proof. destruct v; eauto. Qed.

Lemma cast_all_strings (k : Z) (actors : list value) (g g' : D3Response) :
  rangeM (linkActor k) actors g = Ok g' → ∃ names, actors = VString <$> names.
Proof.
  revert g. induction actors as [|v actors IH]; intros g Hok.
  - by exists [].
  - simpl in Hok. destruct (value_string_dec v) as [[s ->]|Hv].
    + destruct (linkActor k g (VString s)) as [g1|p]; [|done].
      destruct (IH g1 Hok) as [names ->]. by exists (s :: names).
    + by rewrite linkActor_not_string in Hok.
Qed.

Lemma graphRecord_unfold (g : D3Response) (record : neo4j.record) :
  graphRecord g record =
  rangeM (linkActor (Z.of_nat (length (D3_Nodes g)))) (graphCast record)
         {| D3_Nodes := D3_Nodes g ++ [mkNode (graphTitle record) "movie"];
            D3_Links := D3_Links g |}.
Proof.
  unfold graphRecord, graphTitle, graphCast.
  destruct (neo4j.GetRecordValue string record "movie") as [[title ?] ?].
  destruct (neo4j.GetRecordValue (list value) record "cast") as [[actors ?] ?].
  simpl. unfold len. rewrite length_app. simpl.
  by replace (Z.of_nat (length (D3_Nodes g) + 1) - 1)
       with (Z.of_nat (length (D3_Nodes g))) by lia.
Qed.

Lemma graphRecord_Ok (g g' : D3Response) (record : neo4j.record) :
  graphRecord g record = Ok g' → ∃ row, g' = spec_row g row.
Proof.
  rewrite graphRecord_unfold. intros Hok.
  destruct (cast_all_strings _ _ _ _ Hok) as [names Hnames].
  rewrite Hnames in Hok.
  rewrite (rangeM_total _ (spec_linkActor (length (D3_Nodes g)))) in Hok
    by (intros; apply linkActor_spec).
  exists (graphTitle record, names). by injection Hok as <-.
Qed.

Lemma graphProjection_Ok (records : list neo4j.record) (g : D3Response) :
  graphProjection records = Ok g → ∃ rows, g = spec_graph rows.
Proof.
  unfold graphProjection, spec_graph.
  change {| D3_Nodes := []; D3_Links := [] |} with emptyGraph.
  generalize emptyGraph.
  induction records as [|record records IH]; intros g0 Hok; simpl in Hok.
  - exists []. simpl. congruence.
  - destruct (graphRecord g0 record) as [g1|p] eqn:Hrec; [|done].
    apply graphRecord_Ok in Hrec as [row ->].
    destruct (IH _ Hok) as [rows ->]. by exists (row :: rows).
Qed.

Lemma nodeAt_of_nat (g : D3Response) (i : nat) :
  nodeAt g (Z.of_nat i) = D3_Nodes g !! i.
Proof.
  unfold nodeAt. destruct (Z.leb_spec 0 (Z.of_nat i)); [|lia].
  by rewrite Nat2Z.id.
Qed.

(** ** Every node is a movie node or an actor node *)

Lemma cast_labelled (k : nat) (names : list string) (g : D3Response) :
  Forall labelled (D3_Nodes g) →
  Forall labelled (D3_Nodes (foldl (spec_linkActor k) g names)).
Proof.
  revert g. induction names as [|a names IH]; intros g Hg; simpl; [done|].
  apply IH. rewrite spec_linkActor_Nodes. apply Forall_app. split; [done|].
  case_decide; [constructor|].
  constructor; [unfold labelled; by right|constructor].
Qed.

Lemma rows_labelled (rows : list GraphRow) (g : D3Response) :
  Forall labelled (D3_Nodes g) → Forall labelled (D3_Nodes (foldl spec_row g rows)).
Proof.
  revert g. induction rows as [|r rows IH]; intros g Hg; simpl; [done|].
  apply IH, cast_labelled. simpl. apply Forall_app. split; [done|].
  constructor; [unfold labelled; by left|constructor].
Qed.

Lemma labelled_length (nodes : list Node) :
  Forall labelled nodes →
  length nodes = (length (movieTitlesOf nodes) + length (actorTitlesOf nodes))%nat.
Proof.
  unfold movieTitlesOf, actorTitlesOf. rewrite !length_fmap.
  induction 1 as [|n nodes [Hn|Hn] _ IH]; [done| |].
  - rewrite filter_cons_True, (filter_cons_False (λ n, Node_Label n = "actor")) by congruence.
    simpl. lia.
  - rewrite filter_cons_False, (filter_cons_True (λ n, Node_Label n = "actor")) by congruence.
    simpl. lia.
Qed.

Lemma occurrences_NoDup {A : Type} `{EqDecision A} (x : A) (l : list A) :
  NoDup l → x ∈ l → occurrences x l = 1%nat.
Proof.
  unfold occurrences. induction 1 as [|y l Hy Hnd IH]; intros Hin.
  - by apply elem_of_nil in Hin.
  - apply elem_of_cons in Hin as [->|Hin].
    + rewrite filter_cons_True by done. simpl. f_equal.
      apply (occurrences_none y). apply Forall_forall. by intros z Hz ->.
    + rewrite filter_cons_False; [by apply IH|]. by intros ->.
Qed.

Lemma occurrences_elem {A : Type} `{EqDecision A} (x : A) (l : list A) :
  (0 < occurrences x l)%nat → x ∈ l.
Proof.
  unfold occurrences. intros Hpos.
  destruct (filter (eq x) l) as [|y k] eqn:Hf; [simpl in Hpos; lia|].
  assert (y ∈ filter (eq x) l) as [-> ?]%list_elem_of_filter by (rewrite Hf; left).
  done.
Qed.

(** The one actor node of a cast name. *)
Lemma graph_actor_node (rows : list GraphRow) (a : string) :
  a ∈ castNames rows →
  (∀ k', D3_Nodes (spec_graph rows) !! k' = Some (mkNode a "actor")
         ↔ k' = actorIndex (D3_Nodes (spec_graph rows)) a)
  ∧ occurrences a (actorTitlesOf (D3_Nodes (spec_graph rows))) = 1%nat.
Proof.
  intros Ha. split.
  - intros k'. split; [apply graph_actor_unique|]. intros ->. by apply graph_actor_lookup.
  - apply occurrences_NoDup; rewrite graph_actorTitles;
      [apply distinct_NoDup|by apply distinct_elem].
Qed.

(** A name that already has an actor node gets a link and no node. *)
Lemma linkActor_known (t : nat) (g : D3Response) (a : string) :
  a ∈ actorTitlesOf (D3_Nodes g) →
  linkActor (Z.of_nat t) g (VString a) =
  Ok {| D3_Nodes := D3_Nodes g;
        D3_Links := D3_Links g ++ [mkLink (actorIndex (D3_Nodes g) a) t] |}.
Proof.
  intros Ha. rewrite linkActor_spec. f_equal.
  unfold spec_linkActor, actorIndex.
  destruct (list_find (isActorNamed a) (D3_Nodes g)) as [[i n]|] eqn:Hfind; [done|].
  by apply find_actor_None in Hfind.
Qed.

(** * The graph projection: claims *)

(** C1. For every ordered sequence of graph rows (movieTitle, actorNames),
    the graph projection of [graphHandler] returns, without a panic, exactly
    the node and link sequences of the algorithm of the specification; on
    the rows (Top Gun, [Tom Cruise]), (Days of Thunder, [Tom Cruise]) these
    are the nodes Top Gun/movie, Tom Cruise/actor, Days of Thunder/movie and
    the links 1 -> 0 and 1 -> 2. *)
Theorem graphProjection_is_spec_algorithm :
  (∀ rows : list GraphRow,
     graphProjection (recordOfGraphRow <$> rows) = Ok (spec_graph rows))
  ∧ graphProjection (recordOfGraphRow <$> topGunRows) = Ok topGunGraph.
Proof.
  split.
  - apply graphProjection_spec.
  - rewrite graphProjection_spec. f_equal.
Qed.

(** C2. Whatever the records, every link of a response the graph projection
    builds has as source the index of a node labelled actor and as target
    the index of a node labelled movie. An actor named like a movie is no
    exception: the search only matches nodes labelled actor. *)
Theorem graph_links_join_actor_to_movie
    (records : list neo4j.record) (g : D3Response) (l : Link) :
  graphProjection records = Ok g →
  l ∈ D3_Links g →
  ∃ a m, nodeAt g (Link_Source l) = Some (mkNode a "actor") ∧
         nodeAt g (Link_Target l) = Some (mkNode m "movie").
Proof.
  intros [rows ->]%graphProjection_Ok Hl.
  pose proof (graph_linkOk rows) as Hok.
  rewrite Forall_forall in Hok.
  destruct (Hok l Hl) as (s & t & a & m & -> & Hs & Ht).
  exists a, m. simpl. by rewrite !nodeAt_of_nat.
Qed.

Lemma graph_links_join_actor_to_movie_witness :
  graphProjection (recordOfGraphRow <$> sameTitleRows) = Ok sameTitleGraph ∧
  ∃ a m, nodeAt sameTitleGraph 1 = Some (mkNode a "actor") ∧
         nodeAt sameTitleGraph 0 = Some (mkNode m "movie").
Proof.
  split; [reflexivity|].
  apply (graph_links_join_actor_to_movie
           (recordOfGraphRow <$> sameTitleRows) sameTitleGraph (mkLink 1 0)).
  - reflexivity.
  - simpl. left.
Defined.

(** C3. For every sequence of graph rows the response holds one movie node
    per row, in row order and without deduplication, one actor node per
    distinct actor name, in order of first occurrence, and nothing else;
    the links are, row after row, one link per actor name the row carries,
    from the node of the name ([actorIndex]) to the movie node of the row
    ([movieIndex]). *)
Theorem graph_nodes_and_links_per_row (rows : list GraphRow) :
  ∃ g, graphProjection (recordOfGraphRow <$> rows) = Ok g ∧
       movieTitlesOf (D3_Nodes g) = rows.*1 ∧
       length (movieTitlesOf (D3_Nodes g)) = length rows ∧
       actorTitlesOf (D3_Nodes g) = distinct (castNames rows) ∧
       NoDup (actorTitlesOf (D3_Nodes g)) ∧
       length (actorTitlesOf (D3_Nodes g)) = length (remove_dups (castNames rows)) ∧
       length (D3_Nodes g) = (length rows + length (remove_dups (castNames rows)))%nat ∧
       D3_Links g =
         concat (imap (λ i r, rowLinks (D3_Nodes g) (movieIndex rows i) r.2) rows) ∧
       length (D3_Links g) = length (castNames rows) ∧
       (∀ i r, rows !! i = Some r →
               D3_Nodes g !! movieIndex rows i = Some (mkNode r.1 "movie")) ∧
       (∀ a, a ∈ castNames rows →
             D3_Nodes g !! actorIndex (D3_Nodes g) a = Some (mkNode a "actor")).
Proof.
  exists (spec_graph rows).
  assert (length (movieTitlesOf (D3_Nodes (spec_graph rows))) = length rows) as Hm.
  { by rewrite graph_movieTitles, length_fmap. }
  assert (length (actorTitlesOf (D3_Nodes (spec_graph rows)))
          = length (remove_dups (castNames rows))) as Ha.
  { by rewrite graph_actorTitles, distinct_length. }
  split_and!.
  - apply graphProjection_spec.
  - apply graph_movieTitles.
  - exact Hm.
  - apply graph_actorTitles.
  - rewrite graph_actorTitles. apply distinct_NoDup.
  - exact Ha.
  - rewrite <-Hm, <-Ha. apply labelled_length, rows_labelled. constructor.
  - apply graph_Links_closed.
  - apply graph_Links_length.
  - apply movieIndex_lookup.
  - apply graph_actor_lookup.
Qed.

(** C4. When an actor name occurs in the casts of two different rows, the
    response holds exactly one actor node of that name, at some index [k],
    and a link from [k] to the movie node of each of the two rows, which
    are different nodes; the links leaving [k] are as many as the
    occurrences of the name in all casts. Meeting a name that already has a
    node appends a link and leaves the nodes as they are. *)
Theorem shared_actor_one_node_two_links
    (rows : list GraphRow) (i j : nat) (ri rj : GraphRow) (a : string) :
  i ≠ j →
  rows !! i = Some ri → rows !! j = Some rj →
  a ∈ ri.2 → a ∈ rj.2 →
  ∃ g k,
    graphProjection (recordOfGraphRow <$> rows) = Ok g ∧
    (∀ k', D3_Nodes g !! k' = Some (mkNode a "actor") ↔ k' = k) ∧
    occurrences a (actorTitlesOf (D3_Nodes g)) = 1%nat ∧
    D3_Nodes g !! movieIndex rows i = Some (mkNode ri.1 "movie") ∧
    D3_Nodes g !! movieIndex rows j = Some (mkNode rj.1 "movie") ∧
    movieIndex rows i ≠ movieIndex rows j ∧
    mkLink k (movieIndex rows i) ∈ D3_Links g ∧
    mkLink k (movieIndex rows j) ∈ D3_Links g ∧
    occurrences (Z.of_nat k) (Link_Source <$> D3_Links g) = occurrences a (castNames rows) ∧
    (∀ (g0 : D3Response) (t : nat),
       a ∈ actorTitlesOf (D3_Nodes g0) →
       linkActor (Z.of_nat t) g0 (VString a) =
       Ok {| D3_Nodes := D3_Nodes g0;
             D3_Links := D3_Links g0 ++ [mkLink (actorIndex (D3_Nodes g0) a) t] |}).
Proof.
  intros Hij Hi Hj Hai Haj.
  pose proof (row_name_in_cast rows i ri Hi a Hai) as Ha.
  destruct (graph_actor_node rows a Ha) as [Hunique Hone].
  exists (spec_graph rows), (actorIndex (D3_Nodes (spec_graph rows)) a).
  split_and!.
  - apply graphProjection_spec.
  - exact Hunique.
  - exact Hone.
  - by apply movieIndex_lookup.
  - by apply movieIndex_lookup.
  - intros Heq. apply Hij. eapply movieIndex_inj; eauto using lookup_lt_Some.
  - by eapply row_link.
  - by eapply row_link.
  - by apply graph_source_count.
  - intros g0 t. apply linkActor_known.
Qed.

Lemma shared_actor_one_node_two_links_witness :
  ∃ g k,
    graphProjection (recordOfGraphRow <$> topGunRows) = Ok g ∧
    (∀ k', D3_Nodes g !! k' = Some (mkNode "Tom Cruise" "actor") ↔ k' = k) ∧
    occurrences "Tom Cruise" (actorTitlesOf (D3_Nodes g)) = 1%nat ∧
    D3_Nodes g !! movieIndex topGunRows 0 = Some (mkNode "Top Gun" "movie") ∧
    D3_Nodes g !! movieIndex topGunRows 1 = Some (mkNode "Days of Thunder" "movie") ∧
    movieIndex topGunRows 0 ≠ movieIndex topGunRows 1 ∧
    mkLink k (movieIndex topGunRows 0) ∈ D3_Links g ∧
    mkLink k (movieIndex topGunRows 1) ∈ D3_Links g ∧
    occurrences (Z.of_nat k) (Link_Source <$> D3_Links g)
      = occurrences "Tom Cruise" (castNames topGunRows) ∧
    (∀ (g0 : D3Response) (t : nat),
       "Tom Cruise" ∈ actorTitlesOf (D3_Nodes g0) →
       linkActor (Z.of_nat t) g0 (VString "Tom Cruise") =
       Ok {| D3_Nodes := D3_Nodes g0;
             D3_Links := D3_Links g0
                           ++ [mkLink (actorIndex (D3_Nodes g0) "Tom Cruise") t] |}).
Proof.
  apply (shared_actor_one_node_two_links topGunRows 0 1
           ("Top Gun", ["Tom Cruise"]) ("Days of Thunder", ["Tom Cruise"])
           "Tom Cruise").
  - lia.
  - reflexivity.
  - reflexivity.
  - simpl. left.
  - simpl. left.
Defined.

(** C10. When the cast of a row lists a name more than once, the response
    still holds exactly one actor node of that name, and it holds as many
    equal links from that node to the movie node of the row as the cast
    lists the name: links are not deduplicated. *)
Theorem repeated_name_one_node_repeated_links
    (rows : list GraphRow) (i : nat) (r : GraphRow) (a : string) :
  rows !! i = Some r →
  (2 ≤ occurrences a r.2)%nat →
  ∃ g k,
    graphProjection (recordOfGraphRow <$> rows) = Ok g ∧
    (∀ k', D3_Nodes g !! k' = Some (mkNode a "actor") ↔ k' = k) ∧
    occurrences a (actorTitlesOf (D3_Nodes g)) = 1%nat ∧
    D3_Nodes g !! movieIndex rows i = Some (mkNode r.1 "movie") ∧
    occurrences (mkLink k (movieIndex rows i)) (D3_Links g) = occurrences a r.2.
Proof.
  intros Hi Htwice.
  assert (a ∈ r.2) as Hin by (apply occurrences_elem; lia).
  pose proof (row_name_in_cast rows i r Hi a Hin) as Ha.
  destruct (graph_actor_node rows a Ha) as [Hunique Hone].
  exists (spec_graph rows), (actorIndex (D3_Nodes (spec_graph rows)) a).
  split_and!.
  - apply graphProjection_spec.
  - exact Hunique.
  - exact Hone.
  - by apply movieIndex_lookup.
  - by apply row_link_count.
Qed.

Lemma repeated_name_one_node_repeated_links_witness :
  ∃ g k,
    graphProjection (recordOfGraphRow <$> heatRows) = Ok g ∧
    (∀ k', D3_Nodes g !! k' = Some (mkNode "Al Pacino" "actor") ↔ k' = k) ∧
    occurrences "Al Pacino" (actorTitlesOf (D3_Nodes g)) = 1%nat ∧
    D3_Nodes g !! movieIndex heatRows 0 = Some (mkNode "Heat" "movie") ∧
    occurrences (mkLink k (movieIndex heatRows 0)) (D3_Links g) = 2%nat.
Proof.
  apply (repeated_name_one_node_repeated_links heatRows 0
           ("Heat", ["Al Pacino"; "Robert De Niro"; "Al Pacino"]) "Al Pacino").
  - reflexivity.
  - vm_compute. lia.
Defined.

(** * The row decoder *)

(** [GetRecordValue] is total; what it yields is the column's value when the
    column holds a value of the type asked for, and the zero value of the
    type when the column is absent, null or of another type. *)
Lemma GetRecordValue_value (T : Type) `{neo4j.RecordValue T}
    (record : neo4j.record) (key : string) :
  (neo4j.GetRecordValue T record key).1.1 =
  match neo4j.Get record key with
  | (VNil, true) => neo4j.zero
  | (v, true) => default neo4j.zero (neo4j.assert v)
  | (_, false) => neo4j.zero
  end.
Proof.
  unfold neo4j.GetRecordValue.
  destruct (neo4j.Get record key) as [v [|]];
    destruct v; simpl; try done; by destruct (neo4j.assert _).
Qed.

Lemma GetRecordValue_absent (T : Type) `{neo4j.RecordValue T}
    (record : neo4j.record) (key : string) (v : value) :
  neo4j.Get record key = (v, false) →
  neo4j.GetRecordValue T record key = (neo4j.zero, false, Some (neo4j.NoSuchKey key)).
Proof. unfold neo4j.GetRecordValue. intros ->. by destruct v. Qed.

Lemma GetRecordValue_null (T : Type) `{neo4j.RecordValue T}
    (record : neo4j.record) (key : string) :
  neo4j.Get record key = (VNil, true) →
  neo4j.GetRecordValue T record key = (neo4j.zero, true, None).
Proof. unfold neo4j.GetRecordValue. by intros ->. Qed.

Lemma GetRecordValue_other_type (T : Type) `{neo4j.RecordValue T}
    (record : neo4j.record) (key : string) (v : value) :
  neo4j.Get record key = (v, true) → v ≠ VNil → neo4j.assert v = None →
  neo4j.GetRecordValue T record key = (neo4j.zero, false, Some (neo4j.UnexpectedType v)).
Proof.
  unfold neo4j.GetRecordValue. intros -> Hv Hassert.
  destruct v; try done; by rewrite Hassert.
Qed.

Lemma GetRecordValue_same_type (T : Type) `{neo4j.RecordValue T}
    (record : neo4j.record) (key : string) (v : value) (x : T) :
  neo4j.Get record key = (v, true) → v ≠ VNil → neo4j.assert v = Some x →
  neo4j.GetRecordValue T record key = (x, false, None).
Proof.
  unfold neo4j.GetRecordValue. intros -> Hv Hassert.
  destruct v; try done; by rewrite Hassert.
Qed.

(** * The detail projection *)

Lemma toStringSlice_go (slice : list value) (acc : list string) :
  Forall isString slice →
  rangeM (λ result e, s ← assertString e; Ok (result ++ [s])) slice acc
  = Ok (acc ++ omap stringOf slice).
Proof.
  intros Hall. revert acc.
  induction Hall as [|v slice [s ->] _ IH]; intros acc; simpl.
  - by rewrite app_nil_r.
  - rewrite IH. by rewrite <-app_assoc.
Qed.

Lemma toStringSlice_strings (slice : list value) :
  Forall isString slice → toStringSlice slice = Ok (omap stringOf slice).
Proof. intros Hall. unfold toStringSlice. by rewrite toStringSlice_go. Qed.

Lemma toStringSlice_go_panics (slice : list value) (acc : list string) :
  ¬ Forall isString slice →
  ∃ v, rangeM (λ result e, s ← assertString e; Ok (result ++ [s])) slice acc
       = Panic (InterfaceConversion v).
Proof.
  revert acc. induction slice as [|v slice IH]; intros acc Hnot.
  - destruct Hnot. constructor.
  - destruct (decide (isString v)) as [[s ->]|Hv].
    + simpl. apply IH. intros Hall. apply Hnot. constructor; [by eexists|done].
    + exists v. simpl. destruct v; try done. destruct Hv. by eexists.
Qed.

(** The first element that is not a string fails its assertion. *)
Lemma toStringSlice_not_strings (slice : list value) :
  ¬ Forall isString slice → ∃ v, toStringSlice slice = Panic (InterfaceConversion v).
Proof. apply toStringSlice_go_panics. Qed.

Lemma movieRecord_decodable (movie : Movie) (record : neo4j.record) :
  roleDecodable record →
  movieRecord movie record =
  Ok (appendCast (setTitle movie (detailTitle record)) (detailPerson record)).
Proof.
  unfold roleDecodable, movieRecord, detailTitle, detailPerson.
  destruct (neo4j.GetRecordValue string record "title") as [[title ?] ?].
  destruct (neo4j.GetRecordValue string record "name") as [[name ?] ?].
  destruct (neo4j.GetRecordValue string record "job") as [[job ?] ?].
  destruct (neo4j.Get record "role") as [role ?]. simpl.
  destruct role; try done.
  intros Hall. by rewrite toStringSlice_strings.
Qed.

Lemma movieRecord_not_decodable (movie : Movie) (record : neo4j.record) :
  ¬ roleDecodable record → ∃ v, movieRecord movie record = Panic (InterfaceConversion v).
Proof.
  unfold roleDecodable, movieRecord.
  destruct (neo4j.GetRecordValue string record "title") as [[title ?] ?].
  destruct (neo4j.GetRecordValue string record "name") as [[name ?] ?].
  destruct (neo4j.GetRecordValue string record "job") as [[job ?] ?].
  destruct (neo4j.Get record "role") as [role ?]. simpl.
  destruct role; try (by intros []).
  intros [v ->]%toStringSlice_not_strings. by exists v.
Qed.

Lemma movieLoop_decodable (records : list neo4j.record) (movie : Movie) :
  Forall roleDecodable records →
  rangeM movieRecord records movie =
  Ok {| Movie_Released := Movie_Released movie;
        Movie_Title := foldl (λ _ record, detailTitle record) (Movie_Title movie) records;
        Movie_Tagline := Movie_Tagline movie;
        Movie_Votes := Movie_Votes movie;
        Movie_Cast := Movie_Cast movie ++ (detailPerson <$> records) |}.
Proof.
  intros Hall. revert movie.
  induction Hall as [|record records Hrecord _ IH]; intros movie; simpl.
  - rewrite app_nil_r. by destruct movie.
  - rewrite movieRecord_decodable by done. simpl. rewrite IH. simpl.
    by rewrite <-app_assoc.
Qed.

(** On records whose role columns are decodable, the detail projection
    returns the title of the last record and one [Person] per record, in
    record order. *)
Lemma movieProjection_decodable (records : list neo4j.record) :
  Forall roleDecodable records →
  movieProjection records =
  Ok {| Movie_Released := 0; Movie_Title := lastTitle records; Movie_Tagline := "";
        Movie_Votes := 0; Movie_Cast := detailPerson <$> records |}.
Proof. intros Hall. unfold movieProjection. by rewrite movieLoop_decodable. Qed.

(** It panics on all other record sequences. *)
Lemma movieProjection_Ok (records : list neo4j.record) (movie : Movie) :
  movieProjection records = Ok movie → Forall roleDecodable records.
Proof.
  unfold movieProjection. generalize emptyMovie.
  induction records as [|record records IH]; intros movie0 Hok; [constructor|].
  simpl in Hok. destruct (decide (roleDecodable record)) as [Hrec|Hrec].
  - constructor; [done|]. rewrite movieRecord_decodable in Hok by done. eauto.
  - destruct (movieRecord_not_decodable movie0 record Hrec) as [v Hv].
    by rewrite Hv in Hok.
Qed.

(** * [strconv.Atoi] parses the decimal rendering of every Go [int] *)

Lemma string_app_assoc (s1 s2 s3 : string) : (s1 +:+ s2) +:+ s3 = s1 +:+ (s2 +:+ s3).
Proof.
  induction s1 as [|c s1 IH]; [done|].
  change (String c ((s1 +:+ s2) +:+ s3) = String c (s1 +:+ (s2 +:+ s3))).
  by rewrite IH.
Qed.

Lemma pretty_N_go_app (x : N) (s : string) : pretty_N_go x s = pretty_N_go x "" +:+ s.
Proof.
  revert s. induction (N.lt_wf_0 x) as [x _ IH]; intros s.
  destruct (decide (x = 0%N)) as [->|Hx]; [done|].
  assert (x `div` 10 < x)%N as Hlt by (apply N.div_lt; lia).
  rewrite (pretty_N_go_step x s), (pretty_N_go_step x "") by lia.
  rewrite (IH _ Hlt (String _ s)), (IH _ Hlt (String _ "")).
  by rewrite string_app_assoc.
Qed.

Lemma digits_app (s1 s2 : string) (n : Z) :
  strconv.digits (s1 +:+ s2) n =
  match strconv.digits s1 n with
  | Some m => strconv.digits s2 m
  | None => None
  end.
Proof.
  revert n. induction s1 as [|c s1 IH]; intros n; simpl; [done|].
  destruct (strconv.isDigit c); [apply IH|done].
Qed.

Lemma digit_char (d : N) :
  (d < 10)%N →
  strconv.isDigit (pretty_N_char d) = true ∧
  Z.of_N (N_of_ascii (pretty_N_char d)) - 48 = Z.of_N d.
Proof.
  intros Hd.
  assert (d = 0 ∨ d = 1 ∨ d = 2 ∨ d = 3 ∨ d = 4 ∨ d = 5
          ∨ d = 6 ∨ d = 7 ∨ d = 8 ∨ d = 9)%N as Hcases by lia.
  repeat destruct Hcases as [->|Hcases]; [by split..|subst; by split].
Qed.

Lemma digits_pretty_N_go (x : N) :
  strconv.digits (pretty_N_go x "") 0 = Some (Z.of_N x).
Proof.
  induction (N.lt_wf_0 x) as [x _ IH].
  destruct (decide (x = 0%N)) as [->|Hx]; [done|].
  rewrite pretty_N_go_step, pretty_N_go_app, digits_app by lia.
  rewrite IH by (apply N.div_lt; lia). simpl.
  destruct (digit_char (x `mod` 10)%N) as [-> ->]; [by apply N.mod_lt|].
  f_equal. rewrite (N.div_mod x 10) at 3 by done. lia.
Qed.

Lemma Atoi_unsigned (s : string) (un : Z) :
  s ≠ "" → strconv.digits s 0 = Some un → strconv.Atoi s = clamp un.
Proof.
  intros Hs Hdigits. destruct s as [|c s]; [done|].
  assert (strconv.isDigit c = true) as Hc.
  { simpl in Hdigits. by destruct (strconv.isDigit c). }
  unfold strconv.Atoi.
  assert (c ≠ "-"%char ∧ c ≠ "+"%char) as [Hminus Hplus].
  { split; intros ->; done. }
  replace (match String c s with
           | String "-"%char s' => (true, s')
           | String "+"%char s' => (false, s')
           | _ => (false, String c s)
           end) with (false, String c s).
  - by rewrite Hdigits.
  - destruct c as [[] [] [] [] [] [] [] []]; done.
Qed.

Lemma Atoi_negative (s : string) (un : Z) :
  s ≠ "" → strconv.digits s 0 = Some un → strconv.Atoi ("-" +:+ s) = clamp (- un).
Proof.
  intros Hs Hdigits. destruct s as [|c s]; [done|].
  unfold strconv.Atoi. simpl. simpl in Hdigits. by rewrite Hdigits.
Qed.

Lemma pretty_N_go_nonempty (x : N) : (0 < x)%N → pretty_N_go x "" ≠ "".
Proof.
  intros Hx Hempty. pose proof (digits_pretty_N_go x) as Hd.
  rewrite Hempty in Hd. simpl in Hd. injection Hd. lia.
Qed.

Lemma Atoi_pretty (n : Z) :
  strconv.minInt ≤ n ≤ strconv.maxInt → strconv.Atoi (pretty n) = (n, None).
Proof.
  intros Hn.
  assert (clamp n = (n, None)) as Hclamp.
  { unfold clamp.
    destruct (Z.ltb_spec n strconv.minInt); [lia|].
    destruct (Z.ltb_spec strconv.maxInt n); [lia|done]. }
  destruct n as [|p|p].
  - done.
  - rewrite <-Hclamp. apply Atoi_unsigned.
    + by apply pretty_N_go_nonempty.
    + apply (digits_pretty_N_go (Npos p)).
  - rewrite <-Hclamp. apply (Atoi_negative _ (Zpos p)).
    + by apply pretty_N_go_nonempty.
    + apply (digits_pretty_N_go (Npos p)).
Qed.

(** * The handlers: claims *)

(** C5. When the query fails, the driver hands the handler the nil result
    and the error. [searchHandlerFunc] tests the error first: it logs it and
    returns with nothing written. The three other handlers read the result
    before they test the error, and panic on the nil pointer: the error is
    not logged by them. *)
Theorem failed_query_outcomes
    (err : string) (QueryUnescape : string → string) (req : Request) :
  serve (searchHandlerFunc (failingDriver err) req)
    = (Ok tt, {| hs_w := jsonWriter [];
                 hs_log := ["error querying search: " +:+ err] |})
  ∧ serve (movieHandlerFunc (failingDriver err) QueryUnescape req)
    = (Panic NilDereference, {| hs_w := jsonWriter []; hs_log := [] |})
  ∧ serve (voteInMovieHandlerFunc (failingDriver err) QueryUnescape req)
    = (Panic NilDereference, {| hs_w := jsonWriter []; hs_log := [] |})
  ∧ serve (graphHandler (failingDriver err) req)
    = (Panic NilDereference, {| hs_w := jsonWriter []; hs_log := [] |}).
Proof. split_and!; reflexivity. Qed.

(** When the driver hands over both a result and an error, the guard after
    the loop is reached: the error is logged and nothing is written. *)
Lemma late_error_is_logged
    (err : string) (QueryUnescape : string → string) (req : Request) (n : Z) :
  serve (movieHandlerFunc (λ _ _, (Some (resultOf [] n), Some err)) QueryUnescape req)
    = (Ok tt, {| hs_w := jsonWriter [];
                 hs_log := ["error querying movie: " +:+ err] |})
  ∧ serve (voteInMovieHandlerFunc (λ _ _, (Some (resultOf [] n), Some err))
                                  QueryUnescape req)
    = (Ok tt, {| hs_w := jsonWriter [];
                 hs_log := ["error voting for movie: " +:+ err] |})
  ∧ serve (graphHandler (λ _ _, (Some (resultOf [] n), Some err)) req)
    = (Ok tt, {| hs_w := jsonWriter [];
                 hs_log := ["error querying graph: " +:+ err] |}).
Proof. split_and!; reflexivity. Qed.

(** C6. A cast row whose role list holds a value that is not a string makes
    [toStringSlice] panic: the row appends no [Person] and no movie is
    produced, whatever the rows before it appended. A well-formed cast row
    appends its [Person], and the sentinel row of a movie without cast
    yields one cast entry with empty name and job. *)
Theorem detail_row_with_malformed_role_panics :
  movieProjection [neoRecord; malformedRoleRecord]
    = Panic (InterfaceConversion (VInt64 1))
  ∧ movieProjection [neoRecord]
    = Ok {| Movie_Released := 0; Movie_Title := "The Matrix"; Movie_Tagline := "";
            Movie_Votes := 0;
            Movie_Cast := [{| Person_Job := "acted"; Person_Role := ["Neo"];
                              Person_Name := "Keanu Reeves" |}] |}
  ∧ movieProjection [sentinelRecord "The Matrix"]
    = Ok {| Movie_Released := 0; Movie_Title := "The Matrix"; Movie_Tagline := "";
            Movie_Votes := 0;
            Movie_Cast := [{| Person_Job := ""; Person_Role := []; Person_Name := "" |}] |}.
Proof. split_and!; reflexivity. Qed.

(** C7. A single malformed field fails the whole response: a role list, or
    a cast list, that holds a value other than a string makes the handler
    panic before anything is written. *)
Theorem malformed_field_fails_response (QueryUnescape : string → string) :
  serve (movieHandlerFunc (answeringDriver (resultOf [malformedRoleRecord] 0))
                          QueryUnescape movieRequest)
    = (Panic (InterfaceConversion (VInt64 1)),
       {| hs_w := jsonWriter []; hs_log := [] |})
  ∧ serve (graphHandler (answeringDriver (resultOf [malformedCastRecord] 0))
                        (graphRequest None))
    = (Panic (InterfaceConversion (VInt64 42)),
       {| hs_w := jsonWriter []; hs_log := [] |}).
Proof. split; reflexivity. Qed.

(** [Atoi] at work: a decimal integer with an optional sign parses; letters,
    the empty string, an underscore or a value outside [int] do not. *)
Lemma Atoi_examples :
  strconv.Atoi "25" = (25, None)
  ∧ strconv.Atoi "-7" = (-7, None)
  ∧ strconv.Atoi "+7" = (7, None)
  ∧ strconv.Atoi "abc" = (0, Some strconv.ErrSyntax)
  ∧ strconv.Atoi "" = (0, Some strconv.ErrSyntax)
  ∧ strconv.Atoi "-" = (0, Some strconv.ErrSyntax)
  ∧ strconv.Atoi "1_000" = (0, Some strconv.ErrSyntax)
  ∧ strconv.Atoi "9223372036854775807" = (strconv.maxInt, None)
  ∧ strconv.Atoi "9223372036854775808" = (strconv.maxInt, Some strconv.ErrRange).
Proof. split_and!; reflexivity. Qed.

(** A successfully parsed limit is a Go [int]. *)
Lemma Atoi_in_range (s : string) (n : Z) :
  strconv.Atoi s = (n, None) → strconv.minInt ≤ n ≤ strconv.maxInt.
Proof.
  unfold strconv.Atoi.
  destruct (match s with
            | String "-"%char s' => (true, s')
            | String "+"%char s' => (false, s')
            | _ => (false, s)
            end) as [neg body].
  destruct body as [|ch body]; [done|].
  destruct (strconv.digits (String ch body) 0) as [un|]; [|done].
  destruct (Z.ltb_spec (if neg then - un else un) strconv.minInt); [done|].
  destruct (Z.ltb_spec strconv.maxInt (if neg then - un else un)); [done|].
  intros [= <-]. lia.
Qed.

(** C8. The limit [graphHandler] binds in its query is 50 when the request
    has no limit parameter, 50 when the first limit value does not parse as
    an integer, and the parsed integer otherwise; a request with limit=abc
    binds what a request without a limit binds, and a request whose first
    limit value is the decimal rendering of a Go [int] binds that integer.
    The query is run with these parameters and no others. *)
Theorem graph_limit_parameter (req : Request) :
  (values (URL_Query req) "limit" = [] →
   graphParameters req = {[ "limit" := VInt64 50 ]})
  ∧ (∀ first rest n e,
       values (URL_Query req) "limit" = first :: rest →
       strconv.Atoi first = (n, Some e) →
       graphParameters req = {[ "limit" := VInt64 50 ]})
  ∧ (∀ first rest n,
       values (URL_Query req) "limit" = first :: rest →
       strconv.Atoi first = (n, None) →
       graphParameters req = {[ "limit" := VInt64 n ]})
  ∧ graphParameters (graphRequest (Some ["abc"])) = graphParameters (graphRequest None)
  ∧ graphParameters (graphRequest None) = {[ "limit" := VInt64 50 ]}
  ∧ graphParameters (graphRequest (Some ["25"; "abc"])) = {[ "limit" := VInt64 25 ]}
  ∧ (∀ n rest,
       strconv.minInt ≤ n ≤ strconv.maxInt →
       graphParameters (graphRequest (Some (pretty n :: rest)))
       = {[ "limit" := VInt64 n ]})
  ∧ (∀ ExecuteQuery,
       graphHandler ExecuteQuery req =
       graphHandler (λ _ _, ExecuteQuery GraphQuery (graphParameters req)) req).
Proof.
  unfold graphParameters, parseLimit. split_and!.
  - by intros ->.
  - intros first rest n e -> Hatoi. by rewrite Hatoi.
  - intros first rest n -> Hatoi. by rewrite Hatoi.
  - reflexivity.
  - reflexivity.
  - reflexivity.
  - intros n rest Hn. unfold graphRequest, values. simpl.
    rewrite lookup_singleton_eq. simpl. by rewrite Atoi_pretty.
  - reflexivity.
Qed.

(** C9. When the vote query succeeds with a summary of [n] properties set,
    the handler writes the vote result with [updates = n] and logs nothing;
    with no property set it writes the result with [updates = 0], in JSON
    the object with the one member [updates] of value 0. *)
Theorem vote_reports_properties_set
    (QueryUnescape : string → string) (req : Request) (res : neo4j.EagerResult) :
  voteProjection (neo4j.Summary res)
    = {| VoteResult_Updates :=
           neo4j.PropertiesSet (neo4j.SummaryCounters (neo4j.Summary res)) |}
  ∧ serve (voteInMovieHandlerFunc (answeringDriver res) QueryUnescape req)
    = (Ok tt,
       {| hs_w := jsonWriter
                    [JSONVote {| VoteResult_Updates :=
                                   neo4j.PropertiesSet
                                     (neo4j.SummaryCounters (neo4j.Summary res)) |}];
          hs_log := [] |})
  ∧ serve (voteInMovieHandlerFunc (answeringDriver (resultOf [] 0)) QueryUnescape req)
    = (Ok tt,
       {| hs_w := jsonWriter [JSONVote {| VoteResult_Updates := 0 |}];
          hs_log := [] |})
  ∧ json_VoteResult {| VoteResult_Updates := 0 |}
    = "{" +:+ dquote +:+ "updates" +:+ dquote +:+ ":0}".
Proof. split_and!; reflexivity. Qed.

(** * Further properties of the graph projection *)

Lemma strings_decode (l : list value) :
  Forall isString l → l = VString <$> omap stringOf l.
Proof.
  induction 1 as [|v l [s ->] _ IH]; [done|].
  change (VString s :: l = VString s :: (VString <$> omap stringOf l)).
  by f_equal.
Qed.

Lemma omap_stringOf_strings (l : list string) : omap stringOf (VString <$> l) = l.
Proof.
  induction l as [|s l IH]; [done|].
  change (s :: omap stringOf (VString <$> l) = s :: l). by f_equal.
Qed.

Lemma graphRecord_decodable (g : D3Response) (record : neo4j.record) :
  castDecodable record → graphRecord g record = Ok (spec_row g (graphRowOf record)).
Proof.
  intros Hcast. rewrite graphRecord_unfold.
  rewrite (strings_decode _ Hcast) at 1.
  apply rangeM_total. intros. apply linkActor_spec.
Qed.

Lemma graphRecord_Ok_decodable (g g' : D3Response) (record : neo4j.record) :
  graphRecord g record = Ok g' → castDecodable record.
Proof.
  rewrite graphRecord_unfold. intros [names Hnames]%cast_all_strings.
  unfold castDecodable. rewrite Hnames.
  apply Forall_fmap, Forall_forall. intros s _. by exists s.
Qed.

Lemma graphLoop_decodable (records : list neo4j.record) (g : D3Response) :
  Forall castDecodable records →
  rangeM graphRecord records g = Ok (foldl spec_row g (graphRowOf <$> records)).
Proof.
  intros Hall. revert g.
  induction Hall as [|record records Hrec _ IH]; intros g; simpl; [done|].
  rewrite graphRecord_decodable by done. simpl. apply IH.
Qed.

Lemma graphLoop_Ok_decodable (records : list neo4j.record) (g g' : D3Response) :
  rangeM graphRecord records g = Ok g' → Forall castDecodable records.
Proof.
  revert g. induction records as [|record records IH]; intros g Hok; [constructor|].
  simpl in Hok. destruct (graphRecord g record) as [g1|p] eqn:Hrec; [|done].
  constructor; eauto using graphRecord_Ok_decodable.
Qed.

(** X1. On records none of whose cast lists holds anything but strings, the
    graph projection returns the graph of the specification's algorithm for
    the rows the records stand for: the title is the string in the movie
    column, or empty when the column is absent, null or no string, and the
    cast is empty when the cast column is absent, null or no list. *)
Theorem graphProjection_on_records (records : list neo4j.record) :
  Forall castDecodable records →
  graphProjection records = Ok (spec_graph (graphRowOf <$> records)).
Proof. apply graphLoop_decodable. Qed.

Lemma graphProjection_on_records_witness :
  graphProjection [[("cast", VList [VString "Tom Cruise"])];
                   [("movie", VInt64 7); ("cast", VNil)];
                   [("movie", VString "Top Gun"); ("cast", VString "Tom Cruise")]]
  = Ok {| D3_Nodes := [mkNode "" "movie"; mkNode "Tom Cruise" "actor";
                       mkNode "" "movie"; mkNode "Top Gun" "movie"];
          D3_Links := [mkLink 1 0] |}.
Proof.
  apply (graphProjection_on_records
           [[("cast", VList [VString "Tom Cruise"])];
            [("movie", VInt64 7); ("cast", VNil)];
            [("movie", VString "Top Gun"); ("cast", VString "Tom Cruise")]]).
  apply (bool_decide_unpack _). vm_compute. exact I.
Defined.

(** X2. The graph projection panics exactly when some record has a cast
    list holding a value that is not a string; a missing column, a null or
    a value of another type never makes it panic. *)
Theorem graphProjection_returns_iff (records : list neo4j.record) :
  (∃ g, graphProjection records = Ok g) ↔ Forall castDecodable records.
Proof.
  split.
  - intros [g Hok]. by eapply graphLoop_Ok_decodable.
  - intros Hall. eexists. by apply graphLoop_decodable.
Qed.

(** X3. Records are processed in order and nothing already produced is
    touched: when the projection of a longer record list returns, the
    projection of each of its prefixes returns a graph whose nodes and
    links are prefixes of the longer graph's, so indices keep their
    meaning; and a panic on a prefix is the panic of the whole. *)
Theorem graphProjection_append_only (records more : list neo4j.record) :
  (∀ g', graphProjection (records ++ more) = Ok g' →
         ∃ g, graphProjection records = Ok g ∧
              D3_Nodes g `prefix_of` D3_Nodes g' ∧
              D3_Links g `prefix_of` D3_Links g')
  ∧ (∀ p, graphProjection records = Panic p →
          graphProjection (records ++ more) = Panic p).
Proof.
  unfold graphProjection. split.
  - intros g' Hok. rewrite rangeM_app in Hok.
    destruct (rangeM graphRecord records _) as [g|p]; [|done]. simpl in Hok.
    exists g. split; [done|].
    pose proof (graphLoop_Ok_decodable _ _ _ Hok) as Hall.
    rewrite graphLoop_decodable in Hok by done. injection Hok as <-.
    destruct (rows_Nodes (graphRowOf <$> more) g) as [nodes ->].
    destruct (rows_Links (graphRowOf <$> more) g) as (links & -> & _).
    split; by eexists.
  - intros p Hp. by rewrite rangeM_app, Hp.
Qed.

(** * Further properties of the detail projection *)

Lemma lastTitle_snoc (records : list neo4j.record) (record : neo4j.record) :
  lastTitle (records ++ [record]) = detailTitle record.
Proof. unfold lastTitle. by rewrite foldl_snoc. Qed.

(** X4. On records whose role columns hold no list with a non-string
    element, the detail projection returns a movie with one cast entry per
    record, in record order, each with the name and job strings of its
    record (empty when absent, null or no string) and the roles of its role
    list (none when the role is no list); the title is that of the last
    record, and released, tagline and votes are never filled in. *)
Theorem movieProjection_on_records (records : list neo4j.record) :
  Forall roleDecodable records →
  ∃ movie,
    movieProjection records = Ok movie ∧
    Movie_Cast movie = detailPerson <$> records ∧
    length (Movie_Cast movie) = length records ∧
    Movie_Title movie = lastTitle records ∧
    (∀ earlier record, records = earlier ++ [record] →
                       Movie_Title movie = detailTitle record) ∧
    Movie_Released movie = 0 ∧ Movie_Tagline movie = "" ∧ Movie_Votes movie = 0.
Proof.
  intros Hall. eexists. split; [by apply movieProjection_decodable|]. simpl.
  split_and!; try done.
  - by rewrite length_fmap.
  - intros earlier record ->. apply lastTitle_snoc.
Qed.

Lemma movieProjection_on_records_witness :
  ∃ movie,
    movieProjection [neoRecord; [("title", VString "Matrix"); ("role", VInt64 3)]]
      = Ok movie ∧
    Movie_Cast movie =
      [{| Person_Job := "acted"; Person_Role := ["Neo"]; Person_Name := "Keanu Reeves" |};
       {| Person_Job := ""; Person_Role := []; Person_Name := "" |}] ∧
    length (Movie_Cast movie) = 2%nat ∧
    Movie_Title movie = "Matrix" ∧
    (∀ earlier record,
       [neoRecord; [("title", VString "Matrix"); ("role", VInt64 3)]]
         = earlier ++ [record] →
       Movie_Title movie = detailTitle record) ∧
    Movie_Released movie = 0 ∧ Movie_Tagline movie = "" ∧ Movie_Votes movie = 0.
Proof.
  apply (movieProjection_on_records
           [neoRecord; [("title", VString "Matrix"); ("role", VInt64 3)]]).
  apply (bool_decide_unpack _). vm_compute. exact I.
Defined.

(** X5. The detail projection panics exactly when the role column of some
    record is a list that holds a value other than a string. *)
Theorem movieProjection_returns_iff (records : list neo4j.record) :
  (∃ movie, movieProjection records = Ok movie) ↔ Forall roleDecodable records.
Proof.
  split.
  - intros [movie Hok]. by eapply movieProjection_Ok.
  - intros Hall. eexists. by apply movieProjection_decodable.
Qed.

(** X6. [toStringSlice] returns the strings of a list of strings unchanged
    and in order, and on any other list it panics with the first element
    that is not a string, whatever follows it. *)
Theorem toStringSlice_first_offender
    (strings : list string) (v : value) (rest : list value) :
  ¬ isString v →
  toStringSlice (VString <$> strings) = Ok strings ∧
  toStringSlice ((VString <$> strings) ++ v :: rest) = Panic (InterfaceConversion v).
Proof.
  intros Hv.
  assert (Forall isString (VString <$> strings)) as Hall.
  { apply Forall_fmap, Forall_forall. intros s _. by exists s. }
  split.
  - by rewrite toStringSlice_strings, omap_stringOf_strings.
  - unfold toStringSlice. rewrite rangeM_app, toStringSlice_go by done. simpl.
    destruct v; try done. destruct Hv. by eexists.
Qed.

Lemma toStringSlice_first_offender_witness :
  toStringSlice (VString <$> ["Neo"; "Thomas Anderson"]) = Ok ["Neo"; "Thomas Anderson"] ∧
  toStringSlice ((VString <$> ["Neo"; "Thomas Anderson"]) ++ VNil :: [VString "Trinity"; VInt64 1])
    = Panic (InterfaceConversion VNil).
Proof.
  apply (toStringSlice_first_offender ["Neo"; "Thomas Anderson"] VNil
           [VString "Trinity"; VInt64 1]).
  intros [s Hs]. discriminate Hs.
Defined.

(** * Further properties of the handlers *)

Ltac run_handler :=
  unfold serveOn, serve, searchHandlerFunc, movieHandlerFunc,
    voteInMovieHandlerFunc, graphHandler.

Ltac orderly_case :=
  unfold orderly; split_and!;
  [ vm_compute; reflexivity
  | vm_compute; lia
  | let H := fresh in
    intros ?; vm_compute; intros H;
    first [discriminate H | split; reflexivity] ].

Lemma searchHandlerFunc_orderly
    (ExecuteQuery : Query → gmap string value → QueryResult)
    (req : Request) (werr : option string) :
  orderly (serveOn werr (searchHandlerFunc ExecuteQuery req)).
Proof.
  run_handler.
  destruct (ExecuteQuery _ _) as [[res|] [e|]]; destruct werr; orderly_case.
Qed.

Ltac expose_handler :=
  cbv beta iota zeta
      delta [serveOn serve searchHandlerFunc movieHandlerFunc
             voteInMovieHandlerFunc graphHandler
             mbind handler_bind lift deref Header_Set].

Lemma movieHandlerFunc_orderly
    (ExecuteQuery : Query → gmap string value → QueryResult)
    (QueryUnescape : string → string) (req : Request) (werr : option string) :
  orderly (serveOn werr (movieHandlerFunc ExecuteQuery QueryUnescape req)).
Proof.
  run_handler.
  destruct (ExecuteQuery _ _) as [[res|] [e|]]; expose_handler;
    try destruct (movieProjection (neo4j.Records res)) as [movie|p];
    destruct werr; orderly_case.
Qed.

Lemma voteInMovieHandlerFunc_orderly
    (ExecuteQuery : Query → gmap string value → QueryResult)
    (QueryUnescape : string → string) (req : Request) (werr : option string) :
  orderly (serveOn werr (voteInMovieHandlerFunc ExecuteQuery QueryUnescape req)).
Proof.
  run_handler.
  destruct (ExecuteQuery _ _) as [[res|] [e|]]; destruct werr; orderly_case.
Qed.

Lemma graphHandler_orderly
    (ExecuteQuery : Query → gmap string value → QueryResult)
    (req : Request) (werr : option string) :
  orderly (serveOn werr (graphHandler ExecuteQuery req)).
Proof.
  run_handler.
  destruct (ExecuteQuery _ _) as [[res|] [e|]]; expose_handler;
    try destruct (graphProjection (neo4j.Records res)) as [g|p];
    destruct werr; orderly_case.
Qed.

(** X7. Whatever the driver returns, whatever the request and whether or
    not the connection is broken, each of the four JSON handlers sets the
    content type to application/json, writes at most one body, logs at most
    one line, never does both, and has written and logged nothing when it
    panics. *)
Theorem handlers_orderly
    (ExecuteQuery : Query → gmap string value → QueryResult)
    (QueryUnescape : string → string) (req : Request) (werr : option string) :
  orderly (serveOn werr (searchHandlerFunc ExecuteQuery req))
  ∧ orderly (serveOn werr (movieHandlerFunc ExecuteQuery QueryUnescape req))
  ∧ orderly (serveOn werr (voteInMovieHandlerFunc ExecuteQuery QueryUnescape req))
  ∧ orderly (serveOn werr (graphHandler ExecuteQuery req)).
Proof.
  split_and!.
  - apply searchHandlerFunc_orderly.
  - apply movieHandlerFunc_orderly.
  - apply voteInMovieHandlerFunc_orderly.
  - apply graphHandler_orderly.
Qed.

(** X8. The search handler does not panic, whatever the records hold, as
    long as the driver returns a result or an error: a failed query is
    logged, and every column of every record has a default. *)
Theorem searchHandlerFunc_never_panics
    (ExecuteQuery : Query → gmap string value → QueryResult)
    (req : Request) (werr : option string) :
  ExecuteQuery SearchQuery {[ "title" := VString (Values_Get (URL_Query req) "q") ]}
    ≠ (None, None) →
  (serveOn werr (searchHandlerFunc ExecuteQuery req)).1 = Ok tt.
Proof.
  intros Hresult. run_handler.
  destruct (ExecuteQuery _ _) as [[res|] [e|]]; try done; by destruct werr.
Qed.

Lemma searchHandlerFunc_never_panics_witness :
  (serveOn None
     (searchHandlerFunc
        (answeringDriver (resultOf [malformedRoleRecord; malformedCastRecord; []] 0))
        (graphRequest None))).1 = Ok tt.
Proof.
  apply (searchHandlerFunc_never_panics
           (answeringDriver (resultOf [malformedRoleRecord; malformedCastRecord; []] 0))
           (graphRequest None) None).
  discriminate.
Defined.

(** X9. When the query succeeds and the rows are decodable but the
    connection is broken, each handler logs the write error under its own
    message, writes nothing and returns normally. *)
Theorem write_failure_is_logged
    (QueryUnescape : string → string) (req : Request) (e : string) (n : Z)
    (records : list neo4j.record) :
  Forall roleDecodable records →
  Forall castDecodable records →
  let broken := {| Header := {[ "Content-Type" := ["application/json"] ]};
                   Written := []; WriteError := Some e |} in
  serveOn (Some e) (searchHandlerFunc (answeringDriver (resultOf records n)) req)
    = (Ok tt, {| hs_w := broken;
                 hs_log := ["error writing search response: " +:+ e] |})
  ∧ serveOn (Some e)
      (movieHandlerFunc (answeringDriver (resultOf records n)) QueryUnescape req)
    = (Ok tt, {| hs_w := broken;
                 hs_log := ["error writing movie response: " +:+ e] |})
  ∧ serveOn (Some e)
      (voteInMovieHandlerFunc (answeringDriver (resultOf records n)) QueryUnescape req)
    = (Ok tt, {| hs_w := broken;
                 hs_log := ["error writing vote result response: " +:+ e] |})
  ∧ serveOn (Some e) (graphHandler (answeringDriver (resultOf records n)) req)
    = (Ok tt, {| hs_w := broken;
                 hs_log := ["error writing graph response: " +:+ e] |}).
Proof.
  intros Hrole Hcast broken. split_and!.
  - reflexivity.
  - expose_handler. unfold answeringDriver, succeeded, resultOf.
    cbn [neo4j.Records]. rewrite movieProjection_decodable by done. reflexivity.
  - reflexivity.
  - expose_handler. unfold answeringDriver, succeeded, resultOf.
    cbn [neo4j.Records]. unfold graphProjection.
    rewrite graphLoop_decodable by done. reflexivity.
Qed.

Lemma write_failure_is_logged_witness :
  serveOn (Some "broken pipe")
    (searchHandlerFunc (answeringDriver (resultOf [neoRecord] 0)) movieRequest)
    = (Ok tt, {| hs_w := {| Header := {[ "Content-Type" := ["application/json"] ]};
                            Written := []; WriteError := Some "broken pipe" |};
                 hs_log := ["error writing search response: broken pipe"] |})
  ∧ serveOn (Some "broken pipe")
      (movieHandlerFunc (answeringDriver (resultOf [neoRecord] 0)) id movieRequest)
    = (Ok tt, {| hs_w := {| Header := {[ "Content-Type" := ["application/json"] ]};
                            Written := []; WriteError := Some "broken pipe" |};
                 hs_log := ["error writing movie response: broken pipe"] |})
  ∧ serveOn (Some "broken pipe")
      (voteInMovieHandlerFunc (answeringDriver (resultOf [neoRecord] 0)) id movieRequest)
    = (Ok tt, {| hs_w := {| Header := {[ "Content-Type" := ["application/json"] ]};
                            Written := []; WriteError := Some "broken pipe" |};
                 hs_log := ["error writing vote result response: broken pipe"] |})
  ∧ serveOn (Some "broken pipe")
      (graphHandler (answeringDriver (resultOf [neoRecord] 0)) movieRequest)
    = (Ok tt, {| hs_w := {| Header := {[ "Content-Type" := ["application/json"] ]};
                            Written := []; WriteError := Some "broken pipe" |};
                 hs_log := ["error writing graph response: broken pipe"] |}).
Proof.
  apply (write_failure_is_logged id movieRequest "broken pipe" 0 [neoRecord]).
  - apply (bool_decide_unpack _). vm_compute. exact I.
  - apply (bool_decide_unpack _). vm_compute. exact I.
Defined.



Lemma sliceFrom_prefix (pre rest : string) :
  sliceFrom (String.length pre) (pre +:+ rest) = rest.
Proof. induction pre as [|c pre IH]; [done|]. exact IH. Qed.


(** * The title of the movie and vote handlers *)

Lemma unescape_other (c : ascii) (s : string) :
  c ≠ "%"%char → c ≠ "+"%char →
  url.unescape (String c s) = String c <$> url.unescape s.
Proof. intros Hpercent Hplus. destruct c as [[] [] [] [] [] [] [] []]; done. Qed.

Lemma unescape_length (n : nat) (s t : string) :
  (String.length s ≤ n)%nat → url.unescape s = Some t →
  (String.length t ≤ String.length s)%nat.
Proof.
  revert s t. induction n as [|n IH]; intros s t Hn Hs.
  - destruct s; simpl in Hn; [|lia]. by injection Hs as <-.
  - destruct s as [|c s]; [by injection Hs as <-|].
    assert (∀ c' t', String c' <$> url.unescape s = Some t' →
                     (String.length t' ≤ String.length (String c s))%nat) as Hstep.
    { intros c' t' (t0 & Ht0 & ->)%fmap_Some. simpl in *.
      pose proof (IH s t0 ltac:(lia) Ht0). lia. }
    destruct (Ascii.eqb_spec c "%") as [->|Hpercent].
    + destruct s as [|h1 [|h2 rest]]; try done. simpl in Hs.
      destruct (url.ishex h1 && url.ishex h2); [|done].
      apply fmap_Some in Hs as (t0 & Ht0 & ->). simpl in *.
      pose proof (IH rest t0 ltac:(lia) Ht0). lia.
    + destruct (Ascii.eqb_spec c "+") as [->|Hplus]; [by eapply Hstep|].
      apply (Hstep c). by rewrite <-unescape_other.
Qed.

Lemma unescape_plain (s : string) : plain s = true → url.unescape s = Some s.
Proof.
  induction s as [|c s IH]; [done|]. intros Hplain. simpl in Hplain.
  apply andb_prop in Hplain as [[Hpercent Hplus]%andb_prop Hs].
  apply negb_true_iff in Hpercent, Hplus.
  apply Ascii.eqb_neq in Hpercent, Hplus.
  rewrite unescape_other by done. by rewrite IH.
Qed.

Lemma unescape_same_plain (s : string) : url.unescape s = Some s → plain s = true.
Proof.
  induction s as [|c s IH]; [done|]. intros Hs.
  destruct (Ascii.eqb_spec c "%") as [->|Hpercent].
  - destruct s as [|h1 [|h2 rest]]; try done. simpl in Hs.
    destruct (url.ishex h1 && url.ishex h2); [|done].
    apply fmap_Some in Hs as (t0 & Ht0 & [= _ Heq]).
    pose proof (unescape_length _ _ _ (le_n _) Ht0) as Hlen.
    rewrite <-Heq in Hlen. simpl in Hlen. lia.
  - destruct (Ascii.eqb_spec c "+") as [->|Hplus].
    + simpl in Hs. by apply fmap_Some in Hs as (t0 & _ & [=]).
    + rewrite unescape_other in Hs by done.
      apply fmap_Some in Hs as (t0 & Ht0 & [= ->]).
      simpl. rewrite IH by done.
      apply Ascii.eqb_neq in Hpercent, Hplus. by rewrite Hpercent, Hplus.
Qed.

Lemma unescape_trailing_percent (n : nat) (s : string) :
  (String.length s ≤ n)%nat → url.unescape (s +:+ "%") = None.
Proof.
  revert s. induction n as [|n IH]; intros s Hn.
  - destruct s; [done|simpl in Hn; lia].
  - destruct s as [|c s]; [done|].
    destruct (Ascii.eqb_spec c "%") as [->|Hpercent].
    + destruct s as [|h1 [|h2 rest]]; [done| |].
      * by destruct h1 as [[] [] [] [] [] [] [] []].
      * change (url.unescape (String "%" (String h1 (String h2 rest)) +:+ "%"))
          with (if url.ishex h1 && url.ishex h2
                then String (ascii_of_N (url.unhex h1 * 16 + url.unhex h2))
                       <$> url.unescape (rest +:+ "%")
                else None).
        rewrite IH by (simpl in Hn; lia). by destruct (_ && _).
    + change (String c s +:+ "%") with (String c (s +:+ "%")).
      destruct (Ascii.eqb_spec c "+") as [->|Hplus].
      * simpl. by rewrite IH by (simpl in Hn; lia).
      * rewrite unescape_other by done. by rewrite IH by (simpl in Hn; lia).
Qed.

Lemma unescape_plus (s rest : string) :
  plain s = true →
  url.unescape (s +:+ "+" +:+ rest) = (λ t, s +:+ " " +:+ t) <$> url.unescape rest.
Proof.
  induction s as [|c s IH].
  - intros _. reflexivity.
  - intros Hplain. simpl in Hplain.
    apply andb_prop in Hplain as [[Hpercent Hplus]%andb_prop Hs].
    apply negb_true_iff in Hpercent, Hplus.
    apply Ascii.eqb_neq in Hpercent, Hplus.
    change (String c s +:+ "+" +:+ rest) with (String c (s +:+ "+" +:+ rest)).
    rewrite unescape_other by done. rewrite IH by done.
    by destruct (url.unescape rest).
Qed.

(** X12. The movie and vote handlers unescape the rest of the path. The
    title reaches the query unchanged exactly when it holds neither a
    percent sign nor a plus sign: a plus sign becomes a space, and a
    percent sign that is not followed by two hexadecimal digits, as at the
    end of the path, empties the title, the error being discarded. *)
Theorem title_unescaping (s : string) :
  (url.QueryUnescape s = (s, None) ↔ plain s = true)
  ∧ unescapedTitle (s +:+ "%") = ""
  ∧ (∀ rest, plain s = true → plain rest = true →
             unescapedTitle (s +:+ "+" +:+ rest) = s +:+ " " +:+ rest)
  ∧ (∀ ExecuteQuery query,
       plain s = true →
       movieHandlerFunc ExecuteQuery unescapedTitle
         {| URL_Path := "/movie/" +:+ s; URL_Query := query |}
       = movieHandlerFunc
           (λ _ _, ExecuteQuery MovieQuery {[ "title" := VString s ]})
           unescapedTitle {| URL_Path := "/movie/" +:+ s; URL_Query := query |}).
Proof.
  split_and!.
  - unfold url.QueryUnescape. split.
    + destruct (url.unescape s) as [t|] eqn:Hs; [|done].
      intros [= ->]. by apply unescape_same_plain.
    + intros Hs. by rewrite unescape_plain.
  - unfold unescapedTitle, url.QueryUnescape.
    by rewrite (unescape_trailing_percent _ s (le_n _)).
  - intros rest Hs Hrest. unfold unescapedTitle, url.QueryUnescape.
    by rewrite unescape_plus, unescape_plain.
  - intros ExecuteQuery query Hs. unfold movieHandlerFunc. cbn [URL_Path].
    rewrite (sliceFrom_prefix "/movie/" s).
    unfold unescapedTitle, url.QueryUnescape. by rewrite unescape_plain.
Qed.

(** * Configuration *)

(** X13. The database name of the configuration is empty exactly when
    NEO4J_VERSION is set to a value that does not start with 4, or
    NEO4J_DATABASE is set to the empty string; otherwise it is the value of
    NEO4J_DATABASE, or movies when the variable is unset. The address, the
    user and the password are the values of their variables when set, even
    to the empty string, whatever the version. *)
Theorem parseConfiguration_database (env : gmap string string) :
  (Database (parseConfiguration env) = ""
   ↔ (∃ v, env !! "NEO4J_VERSION" = Some v ∧ HasPrefix v "4" = false)
     ∨ env !! "NEO4J_DATABASE" = Some "")
  ∧ (Database (parseConfiguration env) ≠ "" →
     Database (parseConfiguration env)
       = default "movies" (env !! "NEO4J_DATABASE"))
  ∧ Url (parseConfiguration env)
      = default "neo4j+s://demo.neo4jlabs.com" (env !! "NEO4J_URI")
  ∧ Username (parseConfiguration env) = default "movies" (env !! "NEO4J_USER")
  ∧ Password (parseConfiguration env) = default "movies" (env !! "NEO4J_PASSWORD").
Proof.
  unfold parseConfiguration, lookupEnvOrGetDefault. simpl.
  split_and!.
  - destruct (env !! "NEO4J_VERSION") as [v|] eqn:Hv;
      destruct (env !! "NEO4J_DATABASE") as [d|] eqn:Hd; simpl.
    + destruct (HasPrefix v "4") eqn:Hp; simpl; split.
      * intros ->. by right.
      * intros [(v' & [= <-] & Hp')|[= ->]]; [congruence|done].
      * intros _. left. eauto.
      * done.
    + destruct (HasPrefix v "4") eqn:Hp; simpl; split.
      * done.
      * intros [(v' & [= <-] & Hp')|?]; [congruence|done].
      * intros _. left. eauto.
      * done.
    + split.
      * intros ->. by right.
      * intros [(v' & ? & _)|[= ->]]; done.
    + split; [done|]. intros [(v' & ? & _)|?]; done.
  - destruct (env !! "NEO4J_VERSION") as [v|];
      destruct (env !! "NEO4J_DATABASE") as [d|]; simpl; try done;
      by destruct (HasPrefix v "4").
  - by destruct (env !! "NEO4J_URI").
  - by destruct (env !! "NEO4J_USER").
  - by destruct (env !! "NEO4J_PASSWORD").
Qed.

(** * The default handler *)


(** * The limit beyond the range of [int] *)

Lemma Atoi_pretty_clamp (n : Z) : strconv.Atoi (pretty n) = clamp n.
Proof.
  destruct n as [|p|p].
  - done.
  - apply Atoi_unsigned.
    + by apply pretty_N_go_nonempty.
    + apply (digits_pretty_N_go (Npos p)).
  - apply (Atoi_negative _ (Zpos p)).
    + by apply pretty_N_go_nonempty.
    + apply (digits_pretty_N_go (Npos p)).
Qed.

(** X15. A limit value that is a decimal integer outside the range of a Go
    [int] is not clamped to the nearest bound: like any other value that
    does not parse, it makes [parseLimit] fall back to 50. *)
Theorem parseLimit_out_of_range (n : Z) (rest : list string) :
  ¬ (strconv.minInt ≤ n ≤ strconv.maxInt) →
  parseLimit (graphRequest (Some (pretty n :: rest))) = 50.
Proof.
  intros Hn. unfold parseLimit, graphRequest, values. simpl.
  rewrite lookup_singleton_eq. simpl. rewrite Atoi_pretty_clamp. unfold clamp.
  destruct (Z.ltb_spec n strconv.minInt); [done|].
  destruct (Z.ltb_spec strconv.maxInt n); [done|lia].
Qed.

Lemma parseLimit_out_of_range_witness :
  parseLimit (graphRequest (Some ["9223372036854775808"; "10"])) = 50.
Proof.
  apply (parseLimit_out_of_range (2 ^ 63) ["10"]).
  unfold strconv.minInt, strconv.maxInt. lia.
Defined.
